(** * Panorama tile crawler: a shallow embedding of [download_and_convert.py]

    The pipeline downloads the tiles of six cube faces from a tile server,
    pastes them into one image per face and hands the faces to a projection
    routine.  The Python code is asynchronous but strictly sequential (every
    call is awaited at once), so each routine is embedded as a function over
    an explicit world: the file system, and the log of the HTTP requests
    asked of the session.

    Library calls are embedded by their documented behaviour:
    - [os.path.join], [os.path.dirname], [os.path.exists], [os.makedirs],
      [shutil.rmtree] act on path strings; directories are a set of paths,
      and two oracles say which paths the operating system refuses to
      write or to delete;
    - the HTTP session is a server function from requests to responses
      (the server answers a given request the same way each time);
      [session.get] follows redirects and [session.head] does not; every
      call of the session is appended to a log, and the requests that a GET
      sends while it follows redirects are derived from the call;
    - PIL images are symbolic rasters: what matters here is their size and
      how they were built (decoded, cropped, resized, pasted).  A file
      either holds an image, which [Image.open] returns (saving and
      reopening keeps the image), or bytes that [Image.open] rejects.  An
      image object is always truthy, so [if tile:] tests for [None] only;
    - [py360convert.c2e] checks its arguments (six faces of one square
      size, an output width that is a multiple of 8) and raises otherwise;
      its result is kept symbolic, [C2E] of the six faces.

    Logging is left out, and [main] starts from the list of locations that
    [load_data] returned.  Python integers are [Z]; [//] and [%] by a
    positive divisor are [Z.div] and [Z.modulo].

    [load_data] itself is embedded from the parsed JSON document on (reading
    and parsing [DATA_FILE] are left out), with [str] of a list or dict
    taken as a parameter.  [count_jpg_files_recursive] of [count_image.py]
    is embedded over the directory tree that [os.walk] visits. *)

From Stdlib Require Import ZArith Lia Ascii.
From stdpp Require Import base gmap strings list pretty.

Open Scope Z_scope.

(** ** Configuration constants *)

Definition DATA_FILE : string := "data.json".
Definition OUT_DIR : string := "panoramas".
Definition TEMP_DIR : string := "temp_tiles".
Definition FACES : list string := ["f"; "b"; "l"; "r"; "u"; "d"].
Definition TILE_SIZE : Z := 512.

(** ** Strings and paths *)

Definition startswith (s p : string) : bool := String.prefix p s.

Definition endswith (s suffix : string) : bool :=
  let n := String.length s in
  let k := String.length suffix in
  (k <=? n)%nat && String.eqb (String.substring (n - k) k s) suffix.

Definition ensure_slash (url : string) : string :=
  if endswith url "/" then url else url +:+ "/".

(** [version] is the string form of the location's version token; the empty
    string stands for a missing or falsy one. *)
Definition build_version_suffix (version : string) : string :=
  if String.eqb version "" then ""
  else if startswith version "?" then version else "?v=" +:+ version.

(** [os.path.join] for two POSIX components. *)
Definition path_join (a b : string) : string :=
  if startswith b "/" then b
  else if String.eqb a "" || endswith a "/" then a +:+ b
  else a +:+ "/" +:+ b.

Definition is_slash (c : Ascii.ascii) : bool := Ascii.eqb c "/"%char.

(** [p[:i]] with [i] one past the last slash of [p]; [None] without slash. *)
Fixpoint head_to_last_slash (p : string) : option string :=
  match p with
  | EmptyString => None
  | String c rest =>
      match head_to_last_slash rest with
      | Some h => Some (String c h)
      | None => if is_slash c then Some "/"%string else None
      end
  end.

Fixpoint rstrip_slash (s : string) : string :=
  match s with
  | EmptyString => EmptyString
  | String c rest =>
      let r := rstrip_slash rest in
      if String.eqb r "" && is_slash c then EmptyString else String c r
  end.

(** [os.path.dirname]: the head up to the last slash, without its trailing
    slashes unless it consists of slashes only. *)
Definition dirname (p : string) : string :=
  let head := default EmptyString (head_to_last_slash p) in
  let r := rstrip_slash head in
  if String.eqb r "" then head else r.

(** The directories [os.makedirs p] walks through: every proper prefix of
    [p] that ends before a slash, outermost first. *)
Fixpoint dir_chain (acc p : string) : list string :=
  match p with
  | EmptyString => []
  | String c rest =>
      if is_slash c
      then (if String.eqb (rstrip_slash acc) "" then [] else [rstrip_slash acc])
             ++ dir_chain (acc +:+ "/") rest
      else dir_chain (acc +:+ String c EmptyString) rest
  end.

(** [p] is [dir] itself or lies below it. *)
Definition under (dir p : string) : bool :=
  String.eqb p dir || startswith p (ensure_slash dir).

(** ** Images *)

Definition box : Type := Z * Z * Z * Z.

(** A PIL image, kept symbolic: a raster decoded from a file, a blank
    canvas, or the result of [crop], [resize], [paste] and of the cube to
    equirectangular projection. *)
Inductive image : Type :=
  | Raster (w h : Z) (pixels : string)
  | Blank (w h : Z)
  | Crop (b : box) (src : image)
  | Resize (w h : Z) (src : image)
  | Paste (canvas tile : image) (off : Z * Z)
  | C2E (F R B L U D : image) (h w : Z).

(** [Image.size], as (width, height). *)
Fixpoint size (im : image) : Z * Z :=
  match im with
  | Raster w h _ => (w, h)
  | Blank w h => (w, h)
  | Crop (l, t, r, b) _ => (r - l, b - t)
  | Resize w h _ => (w, h)
  | Paste canvas _ _ => size canvas
  | C2E _ _ _ _ _ _ h w => (w, h)
  end.

(** The tiles pasted on a canvas, first paste first, and the canvas the
    pasting started from. *)
Fixpoint pastes (im : image) : list (image * (Z * Z)) :=
  match im with
  | Paste canvas tile off => pastes canvas ++ [(tile, off)]
  | _ => []
  end.

Fixpoint ground (im : image) : image :=
  match im with
  | Paste canvas _ _ => ground canvas
  | _ => im
  end.

(** File contents: an image file, or bytes that no decoder identifies. *)
Inductive blob : Type :=
  | Jpeg (im : image)
  | Junk (bytes : string).

(** ** The world *)

Inductive request : Type :=
  | HEAD (url : string)
  | GET (url : string).

(** A response with its status and body, a response that also carries a
    [Location] header, or no response at all (timeout, refused connection,
    any transport error). *)
Inductive response : Type :=
  | Status (code : Z) (body : blob)
  | Redirect (code : Z) (location : string) (body : blob)
  | TransportError.

Global Instance request_eq_dec : EqDecision request.
Proof. solve_decision. Defined.

Record World : Type := mkWorld {
  files : gmap string blob;
  dirs : gset string;
  requests : list request
}.

Definition set_files (f : gmap string blob → gmap string blob) (w : World) : World :=
  mkWorld (f (files w)) (dirs w) (requests w).
Definition set_dirs (f : gset string → gset string) (w : World) : World :=
  mkWorld (files w) (f (dirs w)) (requests w).
Definition sent (r : request) (w : World) : World :=
  mkWorld (files w) (dirs w) (requests w ++ [r]).

(** ** Exceptions and the computation monad *)

Inductive exn : Type :=
  | FileNotFoundError (path : string)
  | IsADirectoryError (path : string)
  | UnidentifiedImageError (path : string)
  | OSError (path : string)
  | KeyError (key : string)
  | ClientError (url : string)
  | CubeError.

(** A call returns a value, raises, or exceeds the recursion budget it was
    given ([Overflow] is not an exception: no handler catches it). *)
Inductive res (A : Type) : Type :=
  | Val (a : A)
  | Exc (e : exn)
  | Overflow.
Arguments Val {A} a.
Arguments Exc {A} e.
Arguments Overflow {A}.

Definition M (A : Type) : Type := World → res A * World.

Definition ret {A} (a : A) : M A := λ w, (Val a, w).
Definition raise {A} (e : exn) : M A := λ w, (Exc e, w).
Definition bind {A B} (m : M A) (k : A → M B) : M B :=
  λ w, match m w with
       | (Val a, w') => k a w'
       | (Exc e, w') => (Exc e, w')
       | (Overflow, w') => (Overflow, w')
       end.

(** [try: body except: handler] with a bare [except]. *)
Definition try_except {A} (body handler : M A) : M A :=
  λ w, match body w with
       | (Exc _, w') => handler w'
       | r => r
       end.

Declare Scope io_scope.
Delimit Scope io_scope with io.
Notation "'let*' x ':=' m 'in' k" := (bind m (λ x, k))
  (at level 10, x pattern, m at level 100, k at level 200) : io_scope.
Notation "m ;;; k" := (bind m (λ _, k))
  (at level 100, right associativity) : io_scope.
Open Scope io_scope.

(** [for x in xs: body x], stopping at the first exception. *)
Fixpoint for_each {A} (xs : list A) (body : A → M unit) : M unit :=
  match xs with
  | [] => ret tt
  | x :: rest => body x ;;; for_each rest body
  end.

(** [for x in xs: acc = body acc x]. *)
Fixpoint for_fold {A S} (xs : list A) (body : S → A → M S) (acc : S) : M S :=
  match xs with
  | [] => ret acc
  | x :: rest => let* acc' := body acc x in for_fold rest body acc'
  end.

(** [range(n)]. *)
Definition range (n : Z) : list Z := seqZ 0 n.

(** [range(n - 1, -1, -1)]. *)
Definition range_down (n : Z) : list Z := reverse (seqZ 0 n).

(** A location as [load_data] returns it. *)
Record location : Type := mkLocation {
  name : string;
  baseUrl : string;
  panoramas : list string;
  version : string
}.

(** ** Loading the locations *)

(** A parsed JSON document, as [json.loads] returns it.  Of a float only
    two things matter here: whether it is zero, and its text. *)
#[local] Unset Elimination Schemes.
Inductive json : Type :=
  | JNull
  | JBool (b : bool)
  | JInt (n : Z)
  | JFloat (is_zero : bool) (text : string)
  | JStr (s : string)
  | JArr (items : list json)
  | JObj (members : list (string * json)).
#[local] Set Elimination Schemes.

(** What [load_data] can raise once the document is parsed. *)
Inductive load_error : Type :=
  | AttributeError (receiver : json)
  | TypeError (operand : json).

(** An entry of the list that [load_data] returns. *)
Record entry : Type := mkEntry {
  entry_name : json;
  entry_baseUrl : string;
  entry_panoramas : json;
  entry_version : json
}.

(** Python truth value. *)
Definition truthy (v : json) : bool :=
  match v with
  | JNull => false
  | JBool b => b
  | JInt n => negb (n =? 0)
  | JFloat is_zero _ => negb is_zero
  | JStr s => negb (String.eqb s "")
  | JArr items => match items with [] => false | _ => true end
  | JObj members => match members with [] => false | _ => true end
  end.

Definition is_object (v : json) : bool :=
  match v with
  | JObj _ => true
  | _ => false
  end.

(** [a or b]. *)
Definition py_or (a b : json) : json := if truthy a then a else b.

(** [d.get(key)], with [None] for a missing key. *)
Definition dict_get (members : list (string * json)) (key : string) : json :=
  match list_find (λ kv, kv.1 = key) members with
  | Some (_, (_, v)) => v
  | None => JNull
  end.

Definition chars (s : string) : list json :=
  (λ c, JStr (String c EmptyString)) <$> String.list_ascii_of_string s.

(** What a [for] loop over [v] visits: the items of a list, the keys of a
    dict, the characters of a string. *)
Definition iterate (v : json) : load_error + list json :=
  match v with
  | JArr items => inr items
  | JObj members => inr (JStr <$> members.*1)
  | JStr s => inr (chars s)
  | _ => inl (TypeError v)
  end.

Section Loader.

(** [str] of a list or of a dict, which is their [repr]. *)
Variable container_repr : json → string.

(** [str(v)]. *)
Definition py_str (v : json) : string :=
  match v with
  | JNull => "None"
  | JBool true => "True"
  | JBool false => "False"
  | JInt n => pretty n
  | JFloat _ text => text
  | JStr s => s
  | JArr _ | JObj _ => container_repr v
  end.

(** The body of the loop of [load_data]. *)
Definition load_location (idx : nat) (loc : json) : load_error + entry :=
  match loc with
  | JObj members =>
      let base_url :=
        ensure_slash (py_str (py_or (dict_get members "baseUrl")
                                (py_or (dict_get members "baseurl") (JStr "")))) in
      let name := py_or (dict_get members "name")
                    (JStr ("loc" +:+ pretty (Z.of_nat idx))) in
      let panoramas := py_or (dict_get members "panoramas") (JArr []) in
      let version := py_or (dict_get members "version") (JStr "") in
      inr (mkEntry name base_url panoramas version)
  | _ => inl (AttributeError loc)
  end.

Fixpoint load_locations (idx : nat) (locations : list json) : load_error + list entry :=
  match locations with
  | [] => inr []
  | loc :: rest =>
      match load_location idx loc with
      | inl e => inl e
      | inr item =>
          match load_locations (S idx) rest with
          | inl e => inl e
          | inr items => inr (item :: items)
          end
      end
  end.

(** [load_data], from the parsed content of [DATA_FILE]. *)
Definition load_data (raw : json) : load_error + list entry :=
  let locations :=
    match raw with
    | JArr _ => inr raw
    | JObj members =>
        inr (match list_find (λ kv, kv.1 = "locations") members with
             | Some (_, (_, v)) => v
             | None => JArr []
             end)
    | _ => inl (AttributeError raw)
    end in
  match locations with
  | inl e => inl e
  | inr v =>
      match iterate v with
      | inl e => inl e
      | inr items => load_locations 0 items
      end
  end.

End Loader.

(** ** Counting images ([count_image.py]) *)

(** [str.lower] on a file name, which is a byte string here: the ASCII
    capitals are the only bytes it changes. *)
Definition lower_char (c : Ascii.ascii) : Ascii.ascii :=
  if Ascii.leb "A" c && Ascii.leb c "Z"
  then Ascii.ascii_of_nat (Ascii.nat_of_ascii c + 32)
  else c.

Fixpoint lower (s : string) : string :=
  match s with
  | EmptyString => EmptyString
  | String c rest => String (lower_char c) (lower rest)
  end.

(** The test of the generator expression: [f.lower().endswith(".jpg")]. *)
Definition is_jpg (f : string) : bool := endswith (lower f) ".jpg".

(** What [os.walk] sees below a directory: the names of its files, and its
    subdirectories, each with its own content unless the walk does not
    enter it (a symbolic link, an unreadable directory). *)
#[local] Unset Elimination Schemes.
Inductive dir_tree : Type :=
  | DirTree (file_names : list string) (subdirs : list (string * option dir_tree)).
#[local] Set Elimination Schemes.

Inductive count_error : Type :=
  | ValueError (path : string).

(** The [files] component of the triples that [os.walk] yields, top down. *)
Fixpoint walk (t : dir_tree) : list (list string) :=
  match t with
  | DirTree file_names subdirs =>
      file_names ::
      (fix walk_all (l : list (string * option dir_tree)) : list (list string) :=
         match l with
         | [] => []
         | (_, Some sub) :: rest => walk sub ++ walk_all rest
         | (_, None) :: rest => walk_all rest
         end) subdirs
  end.

(** [count += sum(1 for f in files if ...)] over the walk. *)
Definition count_walk (triples : list (list string)) (count : nat) : nat :=
  fold_left (λ count file_names, (count + length (filter (λ f, is_jpg f = true) file_names))%nat)
    triples count.

(** [isdir] tells, for a path that is a directory, what lies below it. *)
Definition count_jpg_files_recursive (isdir : string → option dir_tree) (path : string)
    : count_error + nat :=
  match isdir path with
  | None => inl (ValueError path)
  | Some t => inr (count_walk (walk t) 0)
  end.

(** ** Concrete environments *)

Definition world0 : World := mkWorld ∅ ∅ [].

Definition never (_ : string) : bool := false.

Definition unbroken (_ : string) : option blob := None.

Definition tile (pixels : string) : blob := Jpeg (Raster 512 512 pixels).

(** A server holding exactly the listed URLs. *)
Definition serve (table : list (string * blob)) (r : request) : response :=
  let url := match r with HEAD u => u | GET u => u end in
  match list_find (λ kv, kv.1 = url) table with
  | Some (_, (_, body)) => Status 200 body
  | None => Status 404 (Junk "not found")
  end.

Definition loc1 : location := mkLocation "loc" "http://h/" ["p1"; "p2"] "".

(** One 512-pixel tile at level 0 for each face of panorama [pano_id]. *)
Definition six_faces (pano_id : string) : list (string * blob) :=
  (λ face, ("http://h/" +:+ pano_id +:+ "/" +:+ face +:+ "/0/0_0.jpg",
            tile (pano_id +:+ face))) <$> FACES.

(** Panorama p1 has a front face only, of two tiles. *)
Definition only_f : list (string * blob) :=
  [("http://h/p1/f/0/0_0.jpg", tile "p1f00"); ("http://h/p1/f/0/1_0.jpg", tile "p1f10")].

(** Panorama p1 lacks five faces while panorama p2 is complete. *)
Definition p1_partial_p2_full : list (string * blob) := only_f ++ six_faces "p2".

(** Level 0 of face f is there, level 1 is not. *)
Definition only_parent : list (string * blob) :=
  [("http://h/p1/f/0/0_0.jpg", tile "parent")].

(** Tile (1, 1, 1) is served with a body that is no image. *)
Definition junk_child : list (string * blob) :=
  [("http://h/p1/f/1/1_1.jpg", Junk "<html>busy</html>");
   ("http://h/p1/f/0/0_0.jpg", tile "parent")].

(** A level-0 tile of 256 by 256 pixels. *)
Definition small_tile : list (string * blob) :=
  [("http://h/p1/f/0/0_0.jpg", Jpeg (Raster 256 256 "small"))].

(** A tile left under the temp root by an earlier run. *)
Definition stale_world : World :=
  mkWorld {["temp_tiles/p0/f/0_0_0.jpg" := tile "old"]}
          {["temp_tiles"; "temp_tiles/p0"; "temp_tiles/p0/f"]} [].

(** The six face images of panorama p1, already on disk. *)
Definition faces_on_disk : World :=
  mkWorld (list_to_map ((λ face, ("panoramas/loc/p1/" +:+ face +:+ ".jpg", tile face))
                          <$> FACES))
          ∅ [].

(** A front face of one column and two rows of tiles. *)
Definition tall_f : list (string * blob) :=
  [("http://h/p1/f/0/0_0.jpg", tile "p1f00"); ("http://h/p1/f/0/0_1.jpg", tile "p1f01")].

(** A server that moved one tile: the tile URL answers 302 with the address
    of a mirror, and the mirror holds the tile. *)
Definition moved_tile (r : request) : response :=
  if bool_decide (r = GET "http://h/p1/f/0/0_0.jpg")
  then Redirect 302 "http://mirror/t.jpg" (Junk "moved")
  else if bool_decide (r = GET "http://mirror/t.jpg") then Status 200 (tile "mirror")
  else Status 404 (Junk "not found").

(** A disk on which the write to [p] breaks after the file was opened,
    leaving a truncated file. *)
Definition breaks_at (p : string) (q : string) : option blob :=
  if String.eqb p q then Some (Junk "trunc") else None.

(** The six faces of p1 on disk, the front face twice as wide as high. *)
Definition oblong_front : World :=
  set_files (λ f, <["panoramas/loc/p1/f.jpg" := Jpeg (Blank 1024 512)]> f) faces_on_disk.

(** A document with two locations, the second without name and base URL. *)
Definition two_locations : json :=
  JArr [JObj [("name", JStr "plaza"); ("baseUrl", JStr "http://h");
              ("panoramas", JArr [JStr "p1"]); ("version", JInt 3)];
        JObj [("panoramas", JArr [JStr "p2"])]].

(** ** The crawler, over a fixed environment *)

Section Crawler.

(** What the tile server answers to each request. *)
Variable server : request → response.
(** Paths the operating system refuses to create or open for writing, and
    paths it refuses to delete (permissions, files in use).  A file that can
    be opened may still break while it is written (full disk, I/O error):
    [write_breaks p] is then what the attempt leaves in the file. *)
Variable write_fails : string → bool.
Variable write_breaks : string → option blob.
Variable delete_fails : string → bool.

(** *** File system and network primitives *)

Definition path_exists (p : string) (w : World) : bool :=
  bool_decide (is_Some (files w !! p)) || bool_decide (p ∈ dirs w).

Definition os_path_exists (p : string) : M bool :=
  λ w, (Val (path_exists p w), w).

(** [os.makedirs(p, exist_ok=True)]. *)
Definition makedirs (p : string) : M unit :=
  λ w, if String.eqb p "" then (Exc (FileNotFoundError p), w)
       else if write_fails p then (Exc (OSError p), w)
       else (Val tt, set_dirs (λ d, list_to_set (dir_chain "" p) ∪ {[p]} ∪ d) w).

(** [open(p, "wb")] followed by one [write]: opening creates or truncates
    the file, so a write that breaks leaves the file behind. *)
Definition write_file (p : string) (data : blob) : M unit :=
  λ w, if write_fails p then (Exc (OSError p), w)
       else match write_breaks p with
            | Some leftover => (Exc (OSError p), set_files (λ f, <[p := leftover]> f) w)
            | None => (Val tt, set_files (λ f, <[p := data]> f) w)
            end.

(** [Image.open(p)]. *)
Definition image_open (p : string) : M image :=
  λ w, match files w !! p with
       | Some (Jpeg im) => (Val im, w)
       | Some (Junk _) => (Exc (UnidentifiedImageError p), w)
       | None =>
           if bool_decide (p ∈ dirs w) then (Exc (IsADirectoryError p), w)
           else (Exc (FileNotFoundError p), w)
       end.

(** [im.save(p)].  When saving breaks, PIL removes the file if the call
    created it; a file that was there before is left truncated. *)
Definition image_save (p : string) (im : image) : M unit :=
  λ w, if write_fails p then (Exc (OSError p), w)
       else match write_breaks p with
            | Some leftover =>
                (Exc (OSError p),
                 if bool_decide (is_Some (files w !! p))
                 then set_files (λ f, <[p := leftover]> f) w else w)
            | None => (Val tt, set_files (λ f, <[p := Jpeg im]> f) w)
            end.

Definition survives (dir p : string) : bool :=
  negb (under dir p) || delete_fails p.

(** [shutil.rmtree(dir, ignore_errors=True)]: whatever can be deleted
    below [dir] is deleted, and no error is reported. *)
Definition rmtree (dir : string) : M unit :=
  λ w, (Val tt,
        mkWorld (filter (λ kv, Is_true (survives dir kv.1)) (files w))
                (filter (λ p, Is_true (survives dir p)) (dirs w))
                (requests w)).

(** The statuses that the HTTP client follows when the response names a
    location, and how many redirects it accepts in one call. *)
Definition is_redirect_status (code : Z) : bool :=
  (code =? 301) || (code =? 302) || (code =? 303) || (code =? 307) || (code =? 308).

Definition max_redirects : nat := 10.

(** What [session.head(url)] returns: the response as it comes ([head] does
    not follow redirects); [None] when the request raises. *)
Definition head_answer (url : string) : option (Z * blob) :=
  match server (HEAD url) with
  | Status code body => Some (code, body)
  | Redirect code _ body => Some (code, body)
  | TransportError => None
  end.

(** What [session.get(url)] returns: the last response after following
    redirects, of which [budget] more are accepted; [None] when a request
    of the chain raises or the redirects are too many. *)
Fixpoint get_answer (budget : nat) (url : string) : option (Z * blob) :=
  match server (GET url) with
  | Status code body => Some (code, body)
  | Redirect code location body =>
      if is_redirect_status code then
        match budget with
        | O => None
        | S budget' => get_answer budget' location
        end
      else Some (code, body)
  | TransportError => None
  end.

(** The URLs that [session.get(url)] is sent on to, in order. *)
Fixpoint redirect_chain (budget : nat) (url : string) : list string :=
  match server (GET url) with
  | Redirect code location _ =>
      if is_redirect_status code then
        match budget with
        | O => []
        | S budget' => location :: redirect_chain budget' location
        end
      else []
  | _ => []
  end.

(** [session.head(url)] and [session.get(url)] with the body read.  The
    log of the world records the call; the requests that a GET sends on
    the way are those of [redirect_chain]. *)
Definition session_request (r : request) (url : string) : M (Z * blob) :=
  λ w, (match match r with
              | HEAD _ => head_answer url
              | GET _ => get_answer (Nat.pred max_redirects) url
              end with
        | Some resp => Val resp
        | None => Exc (ClientError url)
        end, sent r w).

Definition url_exists (url : string) : M bool :=
  try_except
    (let* resp := session_request (HEAD url) url in
     ret (resp.1 =? 200))
    (ret false).

Definition fetch_tile (url out_path : string) : M bool :=
  let* cached := os_path_exists out_path in
  if cached then ret true
  else
    try_except
      (let* resp := session_request (GET url) url in
       if resp.1 =? 200 then
         makedirs (dirname out_path) ;;;
         write_file out_path resp.2 ;;;
         ret true
       else ret false)
      (ret false).

(** The server answers the existence check of [url] with status 200. *)
Definition head_ok (url : string) : bool :=
  match server (HEAD url) with
  | Status code _ => code =? 200
  | Redirect code _ _ => code =? 200
  | TransportError => false
  end.

(** [os.makedirs(os.path.dirname(out_path))] and the write to [out_path]
    both go through. *)
Definition can_persist (out_path : string) : bool :=
  negb (String.eqb (dirname out_path) "")
  && negb (write_fails (dirname out_path))
  && negb (write_fails out_path)
  && bool_decide (write_breaks out_path = None).

(** *** Grid probing *)

Definition tile_url (base_url pano_id face : string) (level x y : Z)
    (version_suffix : string) : string :=
  base_url +:+ pano_id +:+ "/" +:+ face +:+ "/" +:+ pretty level +:+ "/"
    +:+ pretty x +:+ "_" +:+ pretty y +:+ ".jpg" +:+ version_suffix.

(** One scan loop of [detect_max_grid]: the last index that answered
    before the first miss. *)
Fixpoint scan (probe : Z → string) (indices : list Z) (best : Z) : M Z :=
  match indices with
  | [] => ret best
  | i :: rest =>
      let* hit := url_exists (probe i) in
      if hit then scan probe rest i else ret best
  end.

Definition detect_max_grid (base_url pano_id face version_suffix : string)
    (level max_check : Z) : M (Z * Z) :=
  let* max_x := scan (λ x, tile_url base_url pano_id face level x 0 version_suffix)
                     (range max_check) (-1) in
  let* max_y := scan (λ y, tile_url base_url pano_id face level 0 y version_suffix)
                     (range max_check) (-1) in
  ret (max_x, max_y).

(** *** Tile resolution with fallback *)

(** [for x in xs: r = body x; if r: return r] and [return None] after. *)
Fixpoint for_first {A B} (xs : list A) (body : A → M (option B)) : M (option B) :=
  match xs with
  | [] => ret None
  | x :: rest =>
      let* r := body x in
      match r with
      | Some b => ret (Some b)
      | None => for_first rest body
      end
  end.

Definition tile_path (cache_dir : string) (level x y : Z) : string :=
  path_join cache_dir (pretty level +:+ "_" +:+ pretty x +:+ "_" +:+ pretty y +:+ ".jpg").

(** The tile rebuilt from [sub_tile], found [level - fallback_level]
    levels below. *)
Definition rebuild (level fallback_level x y : Z) (sub_tile : image) : image :=
  let scale := 2 ^ (level - fallback_level) in
  let sub_size := TILE_SIZE `div` scale in
  let cx := (x `mod` scale) * sub_size in
  let cy := (y `mod` scale) * sub_size in
  Resize TILE_SIZE TILE_SIZE (Crop (cx, cy, cx + sub_size, cy + sub_size) sub_tile).

(** [depth] bounds the number of nested calls, this one included. *)
Fixpoint get_tile_with_fallback (depth : nat)
    (base_url pano_id face : string) (level x y : Z)
    (version_suffix cache_dir : string) : M (option image) :=
  match depth with
  | O => λ w, (Overflow, w)
  | S depth' =>
      let out_path := tile_path cache_dir level x y in
      let url := tile_url base_url pano_id face level x y version_suffix in
      let* fetched := fetch_tile url out_path in
      if fetched then
        let* im := image_open out_path in ret (Some im)
      else
        for_first (range_down level) (λ fallback_level,
          let scale := 2 ^ (level - fallback_level) in
          let fx := x `div` scale in
          let fy := y `div` scale in
          let* sub_tile := get_tile_with_fallback depth' base_url pano_id face
                             fallback_level fx fy version_suffix cache_dir in
          match sub_tile with
          | Some t => ret (Some (rebuild level fallback_level x y t))
          | None => ret None
          end)
  end.

(** The nesting budget that a call at [level] is run with. *)
Definition depth_for (level : Z) : nat := S (Z.to_nat level).

(** *** Face assembly *)

Definition default_max_check : Z := 10.

(** The body of the tile loop: resolve one cell and paste it. *)
Definition paste_cell (base_url pano_id face version_suffix face_dir : string)
    (level x : Z) (pano : image) (y : Z) : M image :=
  let* tile := get_tile_with_fallback (depth_for level) base_url pano_id face
                 level x y version_suffix face_dir in
  match tile with
  | Some t => ret (Paste pano t (y * TILE_SIZE, x * TILE_SIZE))
  | None => ret pano
  end.

Definition paste_grid (base_url pano_id face version_suffix face_dir : string)
    (level max_x max_y : Z) (pano : image) : M image :=
  for_fold (range (max_x + 1))
    (λ pano x,
       for_fold (range (max_y + 1))
         (paste_cell base_url pano_id face version_suffix face_dir level x) pano)
    pano.

Definition download_and_merge_face
    (base_url pano_id face version_suffix save_dir : string) (level : Z)
    : M (option string) :=
  let face_dir := path_join (path_join TEMP_DIR pano_id) face in
  makedirs save_dir ;;;
  let* grid := detect_max_grid base_url pano_id face version_suffix level
                 default_max_check in
  let max_x := grid.1 in
  let max_y := grid.2 in
  if (max_x <? 0) || (max_y <? 0) then ret None
  else
    let width := (max_x + 1) * TILE_SIZE in
    let height := (max_y + 1) * TILE_SIZE in
    let* pano := paste_grid base_url pano_id face version_suffix face_dir
                   level max_x max_y (Blank width height) in
    let out_path := path_join save_dir (face +:+ ".jpg") in
    image_save out_path pano ;;;
    ret (Some out_path).

(** *** Projection *)

Definition face_file (pano_dir face : string) : string :=
  path_join pano_dir (face +:+ ".jpg").

Definition load_face (pano_dir : string) (face_images : gmap string image)
    (face : string) : M (gmap string image) :=
  let face_path := face_file pano_dir face in
  let* present := os_path_exists face_path in
  if negb present then raise (FileNotFoundError face_path)
  else
    let* im := image_open face_path in
    ret (<[face := im]> face_images).

Definition subscript (d : gmap string image) (key : string) : M image :=
  match d !! key with
  | Some im => ret im
  | None => raise (KeyError key)
  end.

(** [py360convert.c2e(cube_dict, h, w, mode="bilinear", cube_format="dict")],
    for the positive sizes that [process_pano] passes: it raises (a
    [ValueError], here [CubeError]) unless the six faces have one shape,
    that shape is square and [w] is a multiple of 8.  The projected image
    is kept symbolic. *)
Definition cube_ok (F R B L U D : image) (w : Z) : bool :=
  forallb (λ face, bool_decide (size face = size F)) [R; B; L; U; D]
  && bool_decide ((size F).1 = (size F).2)
  && (w `mod` 8 =? 0).

Definition c2e (F R B L U D : image) (h w : Z) : M image :=
  if cube_ok F R B L U D w then ret (C2E F R B L U D h w) else raise CubeError.

Definition merge_to_equirect (pano_dir out_path : string) (face_size : Z) : M unit :=
  let* face_images := for_fold FACES (load_face pano_dir) ∅ in
  let* F := subscript face_images "f" in
  let* R := subscript face_images "r" in
  let* B := subscript face_images "b" in
  let* L := subscript face_images "l" in
  let* U := subscript face_images "u" in
  let* D := subscript face_images "d" in
  let out_h := face_size * 2 in
  let out_w := face_size * 4 in
  let* equi := c2e F R B L U D out_h out_w in
  image_save out_path equi.

(** *** One panorama, and the run *)

Definition pano_dir_of (loc : location) (pano_id : string) : string :=
  path_join (path_join OUT_DIR (name loc)) pano_id.

(** The loop over [FACES] of [process_pano]; [face_size] stays [None]
    until a face is produced. *)
Definition assemble_face (loc : location) (pano_id : string)
    (face_size : option Z) (face : string) : M (option Z) :=
  let* face_path := download_and_merge_face (baseUrl loc) pano_id face
                      (build_version_suffix (version loc))
                      (pano_dir_of loc pano_id) 0 in
  match face_path, face_size with
  | Some p, None =>
      if String.eqb p "" then ret face_size
      else let* im := image_open p in ret (Some (size im).1)
  | _, _ => ret face_size
  end.

Definition assemble_faces (loc : location) (pano_id : string) : M (option Z) :=
  for_fold FACES (assemble_face loc pano_id) None.

(** What follows the loop: projection and cleanup, both under
    [if face_size:]. *)
Definition finish_pano (loc : location) (pano_id : string)
    (face_size : option Z) : M unit :=
  match face_size with
  | Some n =>
      if n =? 0 then ret tt
      else
        let equi_path := path_join (path_join OUT_DIR (name loc)) (pano_id +:+ ".jpg") in
        merge_to_equirect (pano_dir_of loc pano_id) equi_path n ;;;
        rmtree (pano_dir_of loc pano_id) ;;;
        rmtree TEMP_DIR
  | None => ret tt
  end.

Definition process_pano (loc : location) (pano_id : string) : M unit :=
  let* face_size := assemble_faces loc pano_id in
  finish_pano loc pano_id face_size.

(** [main], from the locations that [load_data] returned. *)
Definition main (data : list location) : M unit :=
  for_each data (λ loc,
    for_each (panoramas loc) (λ pano_id, process_pano loc pano_id)).

(** *** Request traces *)

Definition url_of (r : request) : string :=
  match r with
  | HEAD url => url
  | GET url => url
  end.

(** [r] asks for a level-0 tile of one of the six faces of [pano_id]. *)
Definition level0_request (base_url pano_id suffix : string) (r : request) : Prop :=
  ∃ face x y, face ∈ FACES ∧ url_of r = tile_url base_url pano_id face 0 x y suffix.

(** Every request that [m] asks the session for satisfies [P]. *)
Definition emits {A} (P : request → Prop) (m : M A) : Prop :=
  ∀ w, ∃ new, requests (m w).2 = requests w ++ new ∧ Forall P new.

(** The canvas invariant of the tile loop: it grew from the blank canvas
    of the probed size, and each paste is a resolved tile [(x, y)] of the
    grid at offset [(y * TILE_SIZE, x * TILE_SIZE)]. *)
Definition well_pasted (base_url pano_id face suffix face_dir : string)
    (level max_x max_y : Z) (pano : image) : Prop :=
  ground pano = Blank ((max_x + 1) * TILE_SIZE) ((max_y + 1) * TILE_SIZE)
  ∧ Forall (λ p : image * (Z * Z),
      ∃ x y,
        0 ≤ x ≤ max_x ∧ 0 ≤ y ≤ max_y
        ∧ p.2 = (y * TILE_SIZE, x * TILE_SIZE)
        ∧ ∃ wa wb,
            get_tile_with_fallback (depth_for level) base_url pano_id face level x y
              suffix face_dir wa = (Val (Some p.1), wb))
      (pastes pano).

(** *** Number texts *)

(** The characters of a decimal numeral: digits and the minus sign. *)
Definition is_numeral_char (c : Ascii.ascii) : bool :=
  (Ascii.leb "0" c && Ascii.leb c "9") || Ascii.eqb c "-".

Fixpoint is_numeral (s : string) : bool :=
  match s with
  | EmptyString => true
  | String c rest => is_numeral_char c && is_numeral rest
  end.

(** *** The tile loop, cell by cell *)

(** The cells of the grid, in the order in which the two loops of
    [download_and_merge_face] visit them. *)
Definition grid_cells (max_x max_y : Z) : list (Z * Z) :=
  x ← range (max_x + 1); (λ y, (x, y)) <$> range (max_y + 1).

(** Running the resolver on the cells one after the other. *)
Fixpoint resolve_cells (base_url pano_id face suffix face_dir : string) (level : Z)
    (cells : list (Z * Z)) : M (list (option image)) :=
  match cells with
  | [] => ret []
  | cell :: rest =>
      let* tile := get_tile_with_fallback (depth_for level) base_url pano_id face
                     level cell.1 cell.2 suffix face_dir in
      let* tiles := resolve_cells base_url pano_id face suffix face_dir level rest in
      ret (tile :: tiles)
  end.

(** The pastes that the outcomes of the cells call for: each tile that was
    resolved, at column [y * TILE_SIZE] and row [x * TILE_SIZE]. *)
Definition placed (cells : list (Z * Z)) (tiles : list (option image))
    : list (image * (Z * Z)) :=
  omap (λ ct : (Z * Z) * option image,
          (λ t, (t, (ct.1.2 * TILE_SIZE, ct.1.1 * TILE_SIZE))) <$> ct.2)
       (zip cells tiles).

Definition paste_all (pano : image) (todo : list (image * (Z * Z))) : image :=
  foldl (λ canvas p, Paste canvas p.1 p.2) pano todo.

(** *** Further notions *)

(** The server answers the download of [url] with status 200. *)
Definition get_ok (url : string) : bool :=
  match get_answer (Nat.pred max_redirects) url with
  | Some (code, _) => code =? 200
  | None => false
  end.

(** [r] downloads tile [(level, x, y)] or the tile that covers it at a
    coarser level [l] of the pyramid. *)
Definition ancestor_request (base_url pano_id face suffix : string) (level x y : Z)
    (r : request) : Prop :=
  ∃ l, (l = level ∨ 0 ≤ l < level)
       ∧ r = GET (tile_url base_url pano_id face l
                    (x `div` 2 ^ (level - l)) (y `div` 2 ^ (level - l)) suffix).

(** The requests that one call of the session puts on the wire: the one
    that was asked for and, for a download, those that the redirects lead
    to. *)
Definition on_wire (r : request) : list request :=
  match r with
  | HEAD url => [HEAD url]
  | GET url => GET url :: (GET <$> redirect_chain (Nat.pred max_redirects) url)
  end.

(** Every request sent so far, redirects included. *)
Definition wire_log (w : World) : list request := requests w ≫= on_wire.

(** [r] is a download that the server asked for: it answered some download
    with a redirect to the URL of [r]. *)
Definition named_by_server (r : request) : Prop :=
  ∃ url code body,
    server (GET url) = Redirect code (url_of r) body
    ∧ is_redirect_status code = true
    ∧ r = GET (url_of r).

(** From [w] to [w'] nothing was removed or overwritten: files keep their
    content, directories stay, and requests were only appended. *)
Definition cache_grows (w w' : World) : Prop :=
  files w ⊆ files w' ∧ dirs w ⊆ dirs w' ∧ requests w `prefix_of` requests w'.

(** Every run of [m] relates the world before to the world after by [R]. *)
Definition steps {A} (R : relation World) (m : M A) : Prop :=
  ∀ w, R w (m w).2.

(** * Properties *)

(** ** The monad *)

Lemma bind_val {A B} (m : M A) (k : A → M B) w a w' :
  m w = (Val a, w') → bind m k w = k a w'.
Proof. unfold bind. by intros ->. Qed.

Lemma bind_exc {A B} (m : M A) (k : A → M B) w e w' :
  m w = (Exc e, w') → bind m k w = (Exc e, w').
Proof. unfold bind. by intros ->. Qed.

Lemma bind_inv_val {A B} (m : M A) (k : A → M B) w b w' :
  bind m k w = (Val b, w') → ∃ a w1, m w = (Val a, w1) ∧ k a w1 = (Val b, w').
Proof.
  unfold bind. destruct (m w) as [[a | e |] w1]; [eauto | done | done].
Qed.

Lemma bind_ext {A B} (m1 m2 : M A) (k1 k2 : A → M B) w :
  m1 w = m2 w →
  (∀ a w1, m2 w = (Val a, w1) → k1 a w1 = k2 a w1) →
  bind m1 k1 w = bind m2 k2 w.
Proof.
  unfold bind. intros -> Hk. destruct (m2 w) as [[a | e |] w1]; [eauto | done | done].
Qed.

Lemma bind_no_overflow {A B} (m : M A) (k : A → M B) w :
  (m w).1 ≠ Overflow → (∀ a w1, (k a w1).1 ≠ Overflow) → (bind m k w).1 ≠ Overflow.
Proof.
  unfold bind. intros Hm Hk. destruct (m w) as [[a | e |] w1]; [apply Hk | done | done].
Qed.

Lemma for_first_ext {A B} (xs : list A) (f g : A → M (option B)) w :
  (∀ x w1, x ∈ xs → f x w1 = g x w1) → for_first xs f w = for_first xs g w.
Proof.
  revert w. induction xs as [| x xs IH]; intros w Hfg; [done |].
  cbn [for_first]. apply bind_ext; [apply Hfg, list_elem_of_here |].
  intros [b |] w1 _; [done |].
  apply IH. intros y w2 Hy. apply Hfg. by apply list_elem_of_further.
Qed.

Lemma for_first_no_overflow {A B} (xs : list A) (f : A → M (option B)) w :
  (∀ x w1, x ∈ xs → (f x w1).1 ≠ Overflow) → (for_first xs f w).1 ≠ Overflow.
Proof.
  revert w. induction xs as [| x xs IH]; intros w Hf; [done |].
  cbn [for_first]. unfold bind at 1.
  pose proof (Hf x w (list_elem_of_here _ _)) as Hx.
  destruct (f x w) as [[[b |] | e |] w1]; [done | | done | done].
  apply IH. intros y w2 Hy. apply Hf. by apply list_elem_of_further.
Qed.

Lemma for_first_inv {A B} (xs : list A) (body : A → M (option B)) w b w' :
  for_first xs body w = (Val (Some b), w') →
  ∃ tried x rest wi,
    xs = tried ++ x :: rest
    ∧ for_first tried body w = (Val None, wi)
    ∧ body x wi = (Val (Some b), w').
Proof.
  revert w. induction xs as [| x xs IH]; intros w Hrun; [done |].
  cbn [for_first] in Hrun.
  apply bind_inv_val in Hrun as ([b' |] & w1 & Hx & Hrest).
  - injection Hrest as <- <-. by exists [], x, xs, w.
  - destruct (IH _ Hrest) as (tried & y & rest & wi & -> & Htried & Hy).
    exists (x :: tried), y, rest, wi. split; [done |]. split; [| done].
    cbn [for_first]. by rewrite (bind_val _ _ _ _ _ Hx).
Qed.

Lemma for_first_none_inv {A B} (xs : list A) (body : A → M (option B)) w w' :
  for_first xs body w = (Val None, w') →
  ∀ x, x ∈ xs → ∃ wa wb, body x wa = (Val None, wb).
Proof.
  revert w. induction xs as [| x xs IH]; intros w Hrun y Hy; [by inversion Hy |].
  cbn [for_first] in Hrun.
  apply bind_inv_val in Hrun as ([b' |] & w1 & Hx & Hrest); [done |].
  apply elem_of_cons in Hy as [-> | Hy]; [by eauto | by eapply IH].
Qed.

Lemma for_fold_inv {A S} (I : S → Prop) (xs : list A) (body : S → A → M S)
    acc w r w' :
  I acc →
  (∀ s x wa s' wb, x ∈ xs → I s → body s x wa = (Val s', wb) → I s') →
  for_fold xs body acc w = (Val r, w') → I r.
Proof.
  revert acc w. induction xs as [| x xs IH]; intros acc w Hacc Hstep Hrun.
  - by injection Hrun as <- <-.
  - cbn [for_fold] in Hrun. apply bind_inv_val in Hrun as (s & w1 & Hx & Hrest).
    eapply IH; [| | exact Hrest].
    + eapply Hstep; [apply list_elem_of_here | exact Hacc | exact Hx].
    + intros s0 y wa s' wb Hy. apply Hstep. by apply list_elem_of_further.
Qed.

Lemma for_fold_no_overflow {A S} (xs : list A) (body : S → A → M S) acc w :
  (∀ s x w1, (body s x w1).1 ≠ Overflow) → (for_fold xs body acc w).1 ≠ Overflow.
Proof.
  intros Hbody. revert acc w. induction xs as [| x xs IH]; intros acc w; [done |].
  cbn [for_fold]. apply bind_no_overflow; [apply Hbody | intros; apply IH].
Qed.

Lemma for_each_abort {A} (done_ : list A) x rest (body : A → M unit) w w1 e w2 :
  for_each done_ body w = (Val tt, w1) →
  body x w1 = (Exc e, w2) →
  for_each (done_ ++ x :: rest) body w = (Exc e, w2).
Proof.
  revert w. induction done_ as [| y ys IH]; intros w Hdone Hx.
  - injection Hdone as <-. cbn [app for_each]. by rewrite (bind_exc _ _ _ _ _ Hx).
  - cbn [app for_each] in *. apply bind_inv_val in Hdone as ([] & wy & Hy & Hys).
    rewrite (bind_val _ _ _ _ _ Hy). by apply IH.
Qed.

(** ** Request traces *)

Lemma emits_silent {A} P (m : M A) :
  (∀ w, requests (m w).2 = requests w) → emits P m.
Proof. intros Hm w. exists []. by rewrite app_nil_r. Qed.

Lemma emits_ret {A} P (a : A) : emits P (ret a).
Proof. by apply emits_silent. Qed.

Lemma emits_raise {A} P e : emits P (raise (A:=A) e).
Proof. by apply emits_silent. Qed.

Lemma emits_bind {A B} P (m : M A) (k : A → M B) :
  emits P m → (∀ a, emits P (k a)) → emits P (bind m k).
Proof.
  intros Hm Hk w. unfold bind. destruct (Hm w) as (new1 & Hreq1 & Hnew1).
  destruct (m w) as [[a | e |] w1]; [| by eauto | by eauto].
  destruct (Hk a w1) as (new2 & Hreq2 & Hnew2).
  exists (new1 ++ new2). rewrite Hreq2. cbn in Hreq1. rewrite Hreq1, app_assoc.
  split; [done |]. by apply Forall_app.
Qed.

Lemma emits_try_except {A} P (body handler : M A) :
  emits P body → emits P handler → emits P (try_except body handler).
Proof.
  intros Hb Hh w. unfold try_except. destruct (Hb w) as (new1 & Hreq1 & Hnew1).
  destruct (body w) as [[a | e |] w1]; [by eauto | | by eauto].
  destruct (Hh w1) as (new2 & Hreq2 & Hnew2).
  exists (new1 ++ new2). rewrite Hreq2. cbn in Hreq1. rewrite Hreq1, app_assoc.
  split; [done |]. by apply Forall_app.
Qed.

Lemma emits_for_fold {A S} P (xs : list A) (body : S → A → M S) acc :
  (∀ s x, x ∈ xs → emits P (body s x)) → emits P (for_fold xs body acc).
Proof.
  revert acc. induction xs as [| x xs IH]; intros acc Hbody; [apply emits_ret |].
  cbn [for_fold]. apply emits_bind; [apply Hbody, list_elem_of_here |].
  intros s. apply IH. intros s' y Hy. by apply Hbody, list_elem_of_further.
Qed.

Lemma emits_for_each {A} P (xs : list A) (body : A → M unit) :
  (∀ x, x ∈ xs → emits P (body x)) → emits P (for_each xs body).
Proof.
  induction xs as [| x xs IH]; intros Hbody; [apply emits_ret |].
  cbn [for_each]. apply emits_bind; [apply Hbody, list_elem_of_here |].
  intros _. apply IH. intros y Hy. by apply Hbody, list_elem_of_further.
Qed.

Lemma emits_ext {A} P (m1 m2 : M A) :
  (∀ w, m1 w = m2 w) → emits P m2 → emits P m1.
Proof. intros Heq Hm w. rewrite Heq. apply Hm. Qed.

Lemma emits_session_request P r url : P r → emits P (session_request r url).
Proof.
  intros Hr w. exists [r]. unfold session_request.
  split; [done | by apply Forall_singleton].
Qed.

Lemma emits_makedirs P p : emits P (makedirs p).
Proof.
  apply emits_silent. intros w. unfold makedirs.
  destruct (String.eqb p ""); [done |]. by destruct (write_fails p).
Qed.

Lemma emits_write_file P p data : emits P (write_file p data).
Proof.
  apply emits_silent. intros w. unfold write_file.
  destruct (write_fails p); [done |]. by destruct (write_breaks p).
Qed.

Lemma emits_image_save P p im : emits P (image_save p im).
Proof.
  apply emits_silent. intros w. unfold image_save.
  destruct (write_fails p); [done |]. destruct (write_breaks p); [| done].
  by destruct (bool_decide _).
Qed.

Lemma emits_image_open P p : emits P (image_open p).
Proof.
  apply emits_silent. intros w. unfold image_open.
  destruct (files w !! p) as [[im | junk] |]; [done | done |].
  by destruct (bool_decide _).
Qed.

Lemma emits_url_exists P url : P (HEAD url) → emits P (url_exists url).
Proof.
  intros Hurl. apply emits_try_except; [| apply emits_ret].
  apply emits_bind; [by apply emits_session_request |]. intros resp. apply emits_ret.
Qed.

Lemma emits_fetch_tile P url out_path : P (GET url) → emits P (fetch_tile url out_path).
Proof.
  intros Hurl. apply emits_bind; [by apply emits_silent |].
  intros [|]; [apply emits_ret |].
  apply emits_try_except; [| apply emits_ret].
  apply emits_bind; [by apply emits_session_request |].
  intros resp. destruct (resp.1 =? 200); [| apply emits_ret].
  apply emits_bind; [apply emits_makedirs |]. intros _.
  apply emits_bind; [apply emits_write_file |]. intros _. apply emits_ret.
Qed.

Lemma emits_scan P probe indices best :
  (∀ i, P (HEAD (probe i))) → emits P (scan probe indices best).
Proof.
  intros Hprobe. revert best.
  induction indices as [| i indices IH]; intros best; [apply emits_ret |].
  cbn [scan]. apply emits_bind; [by apply emits_url_exists |].
  intros [|]; [apply IH | apply emits_ret].
Qed.

(** ** Ranges *)

Lemma elem_of_range_down (n k : Z) : k ∈ range_down n ↔ 0 ≤ k < n.
Proof.
  unfold range_down. rewrite elem_of_reverse, elem_of_seqZ. lia.
Qed.

Lemma range_down_nonpos (n : Z) : n ≤ 0 → range_down n = [].
Proof.
  intros Hn. unfold range_down, seqZ.
  replace (Z.to_nat n) with O by lia. done.
Qed.

(** ** The fetcher never raises *)

(** The fetcher, case by case. *)
Lemma fetch_tile_cases url out_path w :
  fetch_tile url out_path w
  = if path_exists out_path w then (Val true, w)
    else
      match get_answer (Nat.pred max_redirects) url with
      | Some (code, body) =>
          if code =? 200 then
            if String.eqb (dirname out_path) "" then (Val false, sent (GET url) w)
            else if write_fails (dirname out_path) then (Val false, sent (GET url) w)
            else
              let w1 := set_dirs (λ d, list_to_set (dir_chain "" (dirname out_path))
                                       ∪ {[dirname out_path]} ∪ d)
                          (sent (GET url) w) in
              if write_fails out_path then (Val false, w1)
              else match write_breaks out_path with
                   | Some leftover =>
                       (Val false, set_files (λ f, <[out_path := leftover]> f) w1)
                   | None => (Val true, set_files (λ f, <[out_path := body]> f) w1)
                   end
          else (Val false, sent (GET url) w)
      | None => (Val false, sent (GET url) w)
      end.
Proof.
  unfold fetch_tile, bind, os_path_exists, try_except, session_request.
  destruct (path_exists out_path w); [done |].
  destruct (get_answer _ url) as [[code body] |]; [| done].
  cbn. destruct (code =? 200); [| done].
  unfold makedirs, write_file.
  destruct (String.eqb (dirname out_path) ""); [done |].
  destruct (write_fails (dirname out_path)); [done |].
  destruct (write_fails out_path); cbn; [done |].
  by destruct (write_breaks out_path).
Qed.

Lemma fetch_tile_total url out_path w :
  ∃ b w', fetch_tile url out_path w = (Val b, w').
Proof.
  rewrite fetch_tile_cases.
  destruct (path_exists out_path w); [by eauto |].
  destruct (get_answer _ url) as [[code body] |]; [| by eauto].
  destruct (code =? 200); [| by eauto].
  destruct (String.eqb (dirname out_path) ""); [by eauto |].
  destruct (write_fails (dirname out_path)); [by eauto |].
  destruct (write_fails out_path); cbn; [by eauto |].
  destruct (write_breaks out_path); by eauto.
Qed.

(** ** Probing *)

Lemma url_exists_spec url w :
  url_exists url w = (Val (head_ok url), sent (HEAD url) w).
Proof.
  unfold url_exists, try_except, bind, session_request, head_answer, head_ok.
  by destruct (server (HEAD url)).
Qed.

(** A scan over [start, start + n) that starts from [best = start - 1]:
    the result is the last index of the initial run of hits, and the probes
    sent are those of the run and of the miss that ended it. *)
Lemma scan_seqZ probe (n : nat) start w :
  ∃ best w',
    scan probe (seqZ start (Z.of_nat n)) (start - 1) w = (Val best, w')
    ∧ start - 1 ≤ best < start + Z.of_nat n
    ∧ (∀ k, start ≤ k ≤ best → head_ok (probe k) = true)
    ∧ (best + 1 < start + Z.of_nat n → head_ok (probe (best + 1)) = false)
    ∧ requests w' = requests w
        ++ ((λ k, HEAD (probe k)) <$> seqZ start (Z.min (best - start + 2) (Z.of_nat n)))
    ∧ files w' = files w ∧ dirs w' = dirs w.
Proof.
  revert start w. induction n as [| n IH]; intros start w.
  - exists (start - 1), w.
    replace (Z.min (start - 1 - start + 2) (Z.of_nat 0)) with 0 by lia.
    change (Z.of_nat 0) with 0. rewrite seqZ_nil by done. cbn. rewrite app_nil_r.
    repeat split; [lia | lia | intros; lia | intros; lia].
  - rewrite seqZ_cons by lia. cbn [scan].
    rewrite (bind_val _ _ _ _ _ (url_exists_spec (probe start) w)).
    destruct (head_ok (probe start)) eqn:Hhit.
    + replace (Z.pred (Z.of_nat (S n))) with (Z.of_nat n) by lia.
      destruct (IH (Z.succ start) (sent (HEAD (probe start)) w))
        as (best & w' & Hscan & Hrange & Hhits & Hmiss & Hreq & Hfiles & Hdirs).
      replace (Z.succ start - 1) with start in Hscan by lia.
      exists best, w'. split; [done |]. split; [lia |]. split; [| split; [| split]].
      * intros k Hk. destruct (decide (k = start)) as [-> | Hne]; [done |].
        apply Hhits. lia.
      * intros Hlt. apply Hmiss. lia.
      * rewrite Hreq. cbn [sent requests]. rewrite <- app_assoc. f_equal.
        replace (Z.min (best - start + 2) (Z.of_nat (S n)))
          with (Z.succ (Z.min (best - Z.succ start + 2) (Z.of_nat n))) by lia.
        rewrite (seqZ_cons start) by lia.
        by replace (Z.pred (Z.succ (Z.min (best - Z.succ start + 2) (Z.of_nat n))))
          with (Z.min (best - Z.succ start + 2) (Z.of_nat n)) by lia.
      * done.
    + exists (start - 1), (sent (HEAD (probe start)) w).
      split; [done |]. split; [lia |]. split; [intros; lia |]. split; [| split].
      * intros _. by replace (start - 1 + 1) with start by lia.
      * cbn [sent requests]. f_equal.
        by replace (Z.min (start - 1 - start + 2) (Z.of_nat (S n))) with 1 by lia.
      * done.
Qed.

(** After a successful fetch the destination exists. *)
Lemma fetch_tile_exists url out_path w w1 :
  fetch_tile url out_path w = (Val true, w1) →
  is_Some (files w1 !! out_path) ∨ out_path ∈ dirs w1.
Proof.
  rewrite fetch_tile_cases.
  destruct (path_exists out_path w) eqn:Hcached.
  { intros [= <-]. unfold path_exists in Hcached.
    apply orb_true_iff in Hcached as [H | H]; apply bool_decide_eq_true in H; eauto. }
  destruct (get_answer _ url) as [[code body] |]; [| done].
  destruct (code =? 200); [| done].
  destruct (String.eqb (dirname out_path) ""); [done |].
  destruct (write_fails (dirname out_path)); [done |].
  destruct (write_fails out_path); cbn; [done |].
  destruct (write_breaks out_path); [done |].
  intros [= <-]. left. cbn. rewrite lookup_insert_eq. eauto.
Qed.

(** ** Recursion depth of the resolver *)

Lemma get_tile_no_overflow depth base_url pano_id face level x y suffix cache_dir w :
  (Z.to_nat level < depth)%nat →
  (get_tile_with_fallback depth base_url pano_id face level x y suffix cache_dir w).1
    ≠ Overflow.
Proof.
  revert level x y w.
  induction depth as [| depth IH]; intros level x y w Hlt; [lia |].
  cbn [get_tile_with_fallback].
  destruct (fetch_tile_total (tile_url base_url pano_id face level x y suffix)
              (tile_path cache_dir level x y) w) as (b & w1 & Hf).
  rewrite (bind_val _ _ _ _ _ Hf). destruct b.
  - unfold bind, image_open.
    destruct (files w1 !! _) as [[im | junk] |]; [done | done |].
    by destruct (bool_decide _).
  - apply for_first_no_overflow. intros fl w2 Hfl%elem_of_range_down.
    apply bind_no_overflow.
    + apply IH. lia.
    + by intros [t |] w3.
Qed.

Lemma get_tile_depth_irrelevant d1 d2 base_url pano_id face level x y suffix cache_dir w :
  (Z.to_nat level < d1)%nat → (Z.to_nat level < d2)%nat →
  get_tile_with_fallback d1 base_url pano_id face level x y suffix cache_dir w
  = get_tile_with_fallback d2 base_url pano_id face level x y suffix cache_dir w.
Proof.
  revert d2 level x y w.
  induction d1 as [| d1 IH]; intros d2 level x y w H1 H2; [lia |].
  destruct d2 as [| d2]; [lia |].
  cbn [get_tile_with_fallback].
  apply bind_ext; [done |]. intros [|] w1 _; [done |].
  apply for_first_ext. intros fl w2 Hfl%elem_of_range_down.
  apply bind_ext; [apply IH; lia | done].
Qed.

(** ** The resolver *)

Lemma size_rebuild level fallback_level x y sub_tile :
  size (rebuild level fallback_level x y sub_tile) = (TILE_SIZE, TILE_SIZE).
Proof. done. Qed.

(** The direct path: once the fetcher reports success, the outcome is that
    of [Image.open] alone. *)
Lemma get_tile_direct depth base_url pano_id face level x y suffix cache_dir w w1 :
  fetch_tile (tile_url base_url pano_id face level x y suffix)
    (tile_path cache_dir level x y) w = (Val true, w1) →
  get_tile_with_fallback (S depth) base_url pano_id face level x y suffix cache_dir w
  = (let* im := image_open (tile_path cache_dir level x y) in ret (Some im)) w1.
Proof.
  intros Hfetch. cbn [get_tile_with_fallback].
  by rewrite (bind_val _ _ _ _ _ Hfetch).
Qed.

(** What one round of the fallback loop returned, read backwards. *)
Lemma fallback_round_inv depth base_url pano_id face level x y suffix cache_dir
    fallback_level (o : option image) wa wb :
  (let* sub_tile := get_tile_with_fallback depth base_url pano_id face fallback_level
                      (x `div` 2 ^ (level - fallback_level))
                      (y `div` 2 ^ (level - fallback_level)) suffix cache_dir in
   match sub_tile with
   | Some t => ret (Some (rebuild level fallback_level x y t))
   | None => ret None
   end) wa = (Val o, wb) →
  ∃ sub_tile,
    get_tile_with_fallback depth base_url pano_id face fallback_level
      (x `div` 2 ^ (level - fallback_level)) (y `div` 2 ^ (level - fallback_level))
      suffix cache_dir wa = (Val sub_tile, wb)
    ∧ o = rebuild level fallback_level x y <$> sub_tile.
Proof.
  intros Hrun. apply bind_inv_val in Hrun as ([t |] & w1 & Hsub & Hret);
    injection Hret as <- <-; by eauto.
Qed.

(** C2, amended: geometry of the resolver's results.  A tile that the
    resolver returns was either decoded from the file of [(level, x, y)]
    itself, and then has whatever size that file decodes to, or it was
    rebuilt from the first coarser level [fallback_level] in
    [level - 1, ..., 0] whose resolution gave a parent tile: with
    [scale = 2 ^ (level - fallback_level)] the parent is the resolved tile
    [(fallback_level, x // scale, y // scale)], the crop is the square of
    edge [TILE_SIZE // scale] at offset
    [((x % scale) * (TILE_SIZE // scale), (y % scale) * (TILE_SIZE // scale))],
    and the result is that crop resized to [TILE_SIZE × TILE_SIZE].  Every
    rebuilt tile has edge [TILE_SIZE], whatever level it came from. *)
Theorem get_tile_with_fallback_geometry
    depth base_url pano_id face level x y suffix cache_dir w im w' :
  get_tile_with_fallback (S depth) base_url pano_id face level x y suffix cache_dir w
    = (Val (Some im), w') →
  let url := tile_url base_url pano_id face level x y suffix in
  let out_path := tile_path cache_dir level x y in
  (fetch_tile url out_path w = (Val true, w')
   ∧ files w' !! out_path = Some (Jpeg im))
  ∨ (∃ w1 higher fallback_level lower wi parent,
       let scale := 2 ^ (level - fallback_level) in
       let sub_size := TILE_SIZE `div` scale in
       let cx := (x `mod` scale) * sub_size in
       let cy := (y `mod` scale) * sub_size in
       fetch_tile url out_path w = (Val false, w1)
       ∧ range_down level = higher ++ fallback_level :: lower
       ∧ 0 ≤ fallback_level < level
       ∧ (∀ l, l ∈ higher → ∃ wa wb,
            get_tile_with_fallback depth base_url pano_id face l
              (x `div` 2 ^ (level - l)) (y `div` 2 ^ (level - l)) suffix cache_dir wa
            = (Val None, wb))
       ∧ get_tile_with_fallback depth base_url pano_id face fallback_level
           (x `div` scale) (y `div` scale) suffix cache_dir wi
         = (Val (Some parent), w')
       ∧ im = Resize TILE_SIZE TILE_SIZE
                (Crop (cx, cy, cx + sub_size, cy + sub_size) parent)
       ∧ size im = (TILE_SIZE, TILE_SIZE)).
Proof.
  clear delete_fails.
  intros Hrun url out_path. cbn [get_tile_with_fallback] in Hrun.
  apply bind_inv_val in Hrun as ([|] & w1 & Hfetch & Hrest).
  - left. apply bind_inv_val in Hrest as (im' & w2 & Hopen & Hret).
    injection Hret as <- <-. unfold image_open in Hopen.
    destruct (files w1 !! _) as [[im'' | junk] |] eqn:Hfile;
      [| done | by destruct (bool_decide _)].
    injection Hopen as <- <-. done.
  - right.
    apply for_first_inv in Hrest as (higher & fl & lower & wi & Hsplit & Hhigher & Hfl).
    apply fallback_round_inv in Hfl as ([parent |] & Hparent & Him); [| done].
    injection Him as ->.
    exists w1, higher, fl, lower, wi, parent. cbv zeta.
    split; [done |]. split; [done |]. split.
    { apply elem_of_range_down. rewrite Hsplit. set_solver. }
    split; [| by split].
    intros l Hl.
    destruct (for_first_none_inv _ _ _ _ Hhigher l Hl) as (wa & wb & Hround).
    apply fallback_round_inv in Hround as ([t |] & Hsub & Hnone); [done |].
    by exists wa, wb.
Qed.

(** C5, amended: a tile file that does not decode.  When the fetcher
    reports success for [(level, x, y)], the resolver returns what
    [Image.open] gives on the cached file and nothing else: the decoded
    image when the file decodes, and otherwise the exception of
    [Image.open], which escapes the resolver.  The world is the one the
    fetcher left: no coarser level is tried. *)
Theorem get_tile_with_fallback_decode
    depth base_url pano_id face level x y suffix cache_dir w w1 :
  let out_path := tile_path cache_dir level x y in
  fetch_tile (tile_url base_url pano_id face level x y suffix) out_path w
    = (Val true, w1) →
  match files w1 !! out_path with
  | Some (Jpeg im) =>
      get_tile_with_fallback (S depth) base_url pano_id face level x y suffix cache_dir w
      = (Val (Some im), w1)
  | Some (Junk _) =>
      get_tile_with_fallback (S depth) base_url pano_id face level x y suffix cache_dir w
      = (Exc (UnidentifiedImageError out_path), w1)
  | None =>
      get_tile_with_fallback (S depth) base_url pano_id face level x y suffix cache_dir w
      = (Exc (IsADirectoryError out_path), w1)
  end.
Proof.
  intros out_path Hfetch. rewrite (get_tile_direct _ _ _ _ _ _ _ _ _ _ _ Hfetch).
  unfold bind, image_open. fold out_path.
  destruct (files w1 !! out_path) as [[im | junk] |] eqn:Hfile; [done | done |].
  destruct (fetch_tile_exists _ _ _ _ Hfetch) as [Hf | Hd]; [by rewrite Hfile in Hf |].
  by rewrite bool_decide_true.
Qed.

(** At level 0 there is nothing to fall back to. *)
Lemma get_tile_level0 depth base_url pano_id face x y suffix cache_dir w :
  get_tile_with_fallback (S depth) base_url pano_id face 0 x y suffix cache_dir w
  = (let* fetched := fetch_tile (tile_url base_url pano_id face 0 x y suffix)
                       (tile_path cache_dir 0 x y) in
     if fetched
     then let* im := image_open (tile_path cache_dir 0 x y) in ret (Some im)
     else ret None) w.
Proof. done. Qed.

(** C3, amended: scenario B.  Tile [(1, 1, 1)] cannot be fetched and tile
    [(0, 0, 0)] is fetched and decodes to [parent]: the resolver computes
    [scale = 2] and returns the quadrant from (256, 256) to (512, 512) of
    the parent, resized to 512 by 512. *)
Theorem get_tile_with_fallback_scenario_B
    base_url pano_id face suffix cache_dir w w1 w2 parent :
  fetch_tile (tile_url base_url pano_id face 1 1 1 suffix) (tile_path cache_dir 1 1 1) w
    = (Val false, w1) →
  fetch_tile (tile_url base_url pano_id face 0 0 0 suffix) (tile_path cache_dir 0 0 0) w1
    = (Val true, w2) →
  files w2 !! tile_path cache_dir 0 0 0 = Some (Jpeg parent) →
  2 ^ (1 - 0) = 2
  ∧ get_tile_with_fallback (depth_for 1) base_url pano_id face 1 1 1 suffix cache_dir w
    = (Val (Some (Resize 512 512 (Crop (256, 256, 512, 512) parent))), w2).
Proof.
  intros Hmiss Hhit Hfile. split; [done |].
  change (depth_for 1) with 2%nat. cbn [get_tile_with_fallback].
  rewrite (bind_val _ _ _ _ _ Hmiss).
  change (range_down 1) with [0]. cbn [for_first].
  change (1 `div` 2 ^ (1 - 0)) with 0.
  unfold bind at 1. unfold bind at 1.
  rewrite (bind_val _ _ _ _ _ Hhit). unfold bind, image_open. by rewrite Hfile.
Qed.

(** ** Face assembly *)

Lemma size_ground pano : size pano = size (ground pano).
Proof. induction pano; done. Qed.

Lemma elem_of_range n k : k ∈ range n ↔ 0 ≤ k < n.
Proof. unfold range. rewrite elem_of_seqZ. lia. Qed.

(** One round of the tile loop pastes the resolved tile with the axes
    swapped, or leaves the canvas as it is. *)
Lemma paste_cell_inv base_url pano_id face suffix face_dir level x pano y w pano' w' :
  paste_cell base_url pano_id face suffix face_dir level x pano y w = (Val pano', w') →
  (∃ t, get_tile_with_fallback (depth_for level) base_url pano_id face level x y
          suffix face_dir w = (Val (Some t), w')
        ∧ pano' = Paste pano t (y * TILE_SIZE, x * TILE_SIZE))
  ∨ (get_tile_with_fallback (depth_for level) base_url pano_id face level x y
       suffix face_dir w = (Val None, w')
     ∧ pano' = pano).
Proof.
  unfold paste_cell. intros Hrun.
  apply bind_inv_val in Hrun as ([t |] & w1 & Hget & Hret); injection Hret as <- <-.
  - left. by exists t.
  - by right.
Qed.

Lemma paste_grid_well_pasted base_url pano_id face suffix face_dir level max_x max_y
    w pano w' :
  paste_grid base_url pano_id face suffix face_dir level max_x max_y
    (Blank ((max_x + 1) * TILE_SIZE) ((max_y + 1) * TILE_SIZE)) w = (Val pano, w') →
  well_pasted base_url pano_id face suffix face_dir level max_x max_y pano.
Proof.
  unfold paste_grid.
  apply (for_fold_inv (well_pasted base_url pano_id face suffix face_dir level max_x max_y)).
  { split; [done | by apply Forall_nil]. }
  intros s x wa s' wb Hx%elem_of_range Hs.
  apply (for_fold_inv (well_pasted base_url pano_id face suffix face_dir level max_x max_y));
    [done |].
  intros c y wc c' wd Hy%elem_of_range [Hground Hpastes] Hcell.
  apply paste_cell_inv in Hcell as [(t & Hget & ->) | [_ ->]]; [| done].
  split; [done |]. cbn [pastes]. apply Forall_app. split; [done |].
  apply Forall_singleton. exists x, y. cbn.
  split; [lia |]. split; [lia |]. split; [done |]. by exists wc, wd.
Qed.

Lemma download_and_merge_face_no_overflow base_url pano_id face suffix save_dir level w :
  (download_and_merge_face base_url pano_id face suffix save_dir level w).1 ≠ Overflow.
Proof.
  assert (∀ probe indices best w1, (scan probe indices best w1).1 ≠ Overflow) as Hscan.
  { intros probe indices. induction indices as [| i indices IH]; intros best w1; [done |].
    cbn [scan]. rewrite (bind_val _ _ _ _ _ (url_exists_spec (probe i) w1)).
    by destruct (head_ok (probe i)). }
  unfold download_and_merge_face. apply bind_no_overflow.
  { unfold makedirs. destruct (String.eqb save_dir ""); [done |].
    by destruct (write_fails save_dir). }
  intros _ w1. apply bind_no_overflow.
  { unfold detect_max_grid. apply bind_no_overflow; [apply Hscan |].
    intros max_x w2. apply bind_no_overflow; [apply Hscan | done]. }
  intros grid w2. destruct (_ || _); [done |]. apply bind_no_overflow.
  { unfold paste_grid. apply for_fold_no_overflow. intros pano x w3.
    apply for_fold_no_overflow. intros pano' y w4. unfold paste_cell.
    apply bind_no_overflow.
    - apply get_tile_no_overflow. unfold depth_for. lia.
    - by intros [t |] w5. }
  intros pano w3. apply bind_no_overflow; [| done].
  unfold image_save. destruct (write_fails _); [done |].
  by destruct (write_breaks _).
Qed.

Lemma bind_assoc {A B C} (m : M A) (k : A → M B) (h : B → M C) w :
  bind (bind m k) h w = bind m (λ a, bind (k a) h) w.
Proof. unfold bind. by destruct (m w) as [[a | e |] w1]. Qed.

Lemma for_fold_app {A S} (l1 l2 : list A) (body : S → A → M S) acc w :
  for_fold (l1 ++ l2) body acc w
  = (let* acc' := for_fold l1 body acc in for_fold l2 body acc') w.
Proof.
  revert acc w. induction l1 as [| x l1 IH]; intros acc w; [done |].
  cbn [app for_fold]. rewrite bind_assoc. apply bind_ext; [done |].
  intros acc' w1 _. apply IH.
Qed.

Lemma for_fold_fmap {A B S} (f : A → B) (l : list A) (body : S → B → M S) acc w :
  for_fold (f <$> l) body acc w = for_fold l (λ s a, body s (f a)) acc w.
Proof.
  revert acc w. induction l as [| x l IH]; intros acc w; [done |].
  cbn [fmap list_fmap for_fold]. apply bind_ext; [done |].
  intros acc' w1 _. apply IH.
Qed.

(** The two nested loops visit [grid_cells] in order. *)
Lemma paste_grid_flat base_url pano_id face suffix face_dir level max_x max_y pano w :
  paste_grid base_url pano_id face suffix face_dir level max_x max_y pano w
  = for_fold (grid_cells max_x max_y)
      (λ canvas cell,
         paste_cell base_url pano_id face suffix face_dir level cell.1 canvas cell.2)
      pano w.
Proof.
  unfold paste_grid, grid_cells. revert pano w.
  induction (range (max_x + 1)) as [| x xs IH]; intros pano w; [done |].
  cbn [for_fold mbind list_bind]. rewrite for_fold_app.
  apply bind_ext; [by rewrite for_fold_fmap |].
  intros canvas w1 _. apply IH.
Qed.

Lemma paste_all_cons pano p todo :
  paste_all pano (p :: todo) = paste_all (Paste pano p.1 p.2) todo.
Proof. done. Qed.

Lemma pastes_paste_all pano todo : pastes (paste_all pano todo) = pastes pano ++ todo.
Proof.
  revert pano. induction todo as [| [t off] todo IH]; intros pano.
  - by rewrite app_nil_r.
  - rewrite paste_all_cons, IH. cbn [pastes fst snd]. by rewrite <- app_assoc.
Qed.

Lemma ground_paste_all pano todo : ground (paste_all pano todo) = ground pano.
Proof.
  revert pano. induction todo as [| [t off] todo IH]; intros pano; [done |].
  by rewrite paste_all_cons, IH.
Qed.

(** The tile loop resolves every cell in order and pastes exactly the
    tiles that were resolved. *)
Lemma paste_cells_resolve base_url pano_id face suffix face_dir level cells pano w :
  for_fold cells
    (λ canvas cell,
       paste_cell base_url pano_id face suffix face_dir level cell.1 canvas cell.2)
    pano w
  = (let* tiles := resolve_cells base_url pano_id face suffix face_dir level cells in
     ret (paste_all pano (placed cells tiles))) w.
Proof.
  revert pano w. induction cells as [| [x y] cells IH]; intros pano w; [done |].
  cbn [for_fold resolve_cells fst snd]. unfold paste_cell at 1.
  rewrite !bind_assoc. apply bind_ext; [done |].
  intros [t |] w1 _.
  - unfold ret at 1. unfold bind at 1. rewrite IH, bind_assoc.
    apply bind_ext; [done |]. by intros tiles w2 _.
  - unfold ret at 1. unfold bind at 1. rewrite IH, bind_assoc.
    apply bind_ext; [done |]. by intros tiles w2 _.
Qed.

Lemma resolve_cells_length base_url pano_id face suffix face_dir level cells w tiles w' :
  resolve_cells base_url pano_id face suffix face_dir level cells w = (Val tiles, w') →
  length tiles = length cells.
Proof.
  revert w tiles w'. induction cells as [| cell cells IH]; intros w tiles w' Hrun.
  - by injection Hrun as <- _.
  - cbn [resolve_cells] in Hrun.
    apply bind_inv_val in Hrun as (tile & w1 & _ & Hrun).
    apply bind_inv_val in Hrun as (rest & w2 & Hrest & Hret).
    injection Hret as <- _. cbn. f_equal. by eapply IH.
Qed.

Lemma elem_of_placed cells tiles i x y t :
  cells !! i = Some (x, y) → tiles !! i = Some (Some t) →
  (t, (y * TILE_SIZE, x * TILE_SIZE)) ∈ placed cells tiles.
Proof.
  intros Hcell Htile. unfold placed. apply list_elem_of_omap.
  exists ((x, y), Some t). split; [| done].
  apply list_elem_of_lookup. exists i.
  apply lookup_zip_with_Some. by exists (x, y), (Some t).
Qed.

Lemma placed_swapped cells tiles :
  Forall (λ p : image * (Z * Z),
    ∃ x y, (x, y) ∈ cells
           ∧ p.2 = (y * TILE_SIZE, x * TILE_SIZE)
           ∧ (x ≠ y → p.2 ≠ (x * TILE_SIZE, y * TILE_SIZE)))
    (placed cells tiles).
Proof.
  apply Forall_forall. intros p Hp. unfold placed in Hp.
  apply list_elem_of_omap in Hp as ([[x y] o] & Hzip & Hp).
  destruct o as [t |]; [| done]. injection Hp as <-.
  exists x, y. cbn [fst snd]. split; [| split; [done |]].
  - apply elem_of_zip_l in Hzip. done.
  - unfold TILE_SIZE. intros Hne [= H1 H2]. lia.
Qed.

Lemma elem_of_grid_cells max_x max_y x y :
  (x, y) ∈ grid_cells max_x max_y ↔ 0 ≤ x ≤ max_x ∧ 0 ≤ y ≤ max_y.
Proof.
  unfold grid_cells. rewrite list_elem_of_bind. split.
  - intros (x' & Hy & Hx). apply list_elem_of_fmap in Hy as (y' & [= -> ->] & Hy).
    apply elem_of_range in Hx. apply elem_of_range in Hy. lia.
  - intros [Hx Hy]. exists x. split; [| apply elem_of_range; lia].
    apply list_elem_of_fmap. exists y. split; [done |]. apply elem_of_range. lia.
Qed.

(** C8: the composite of a face.  When the probe of a face gives
    [max_x ≥ 0] and [max_y ≥ 0], the assembly ends within its recursion
    budget and is this computation: resolve every cell [(x, y)] with
    [0 ≤ x ≤ max_x] and [0 ≤ y ≤ max_y], [x] outermost, each in the world
    the cells before it left; paste every tile that was resolved, in that
    order, on the blank canvas of [(max_x + 1) * TILE_SIZE] by
    [(max_y + 1) * TILE_SIZE] pixels; save the result.  So the image saved
    for the face has exactly that size, its pastes are exactly the resolved
    tiles, and the tile of cell [(x, y)] is pasted at offset
    [(y * TILE_SIZE, x * TILE_SIZE)], the axes swapped, which differs from
    [(x * TILE_SIZE, y * TILE_SIZE)] as soon as [x ≠ y].  In each round of
    the tile loop a resolved tile is pasted at that offset and an absent one
    leaves the canvas untouched.  (The assembly can still raise: a tile file
    that does not decode, a refused write.) *)
Theorem download_and_merge_face_composite
    base_url pano_id face suffix save_dir level w w0 max_x max_y w1 :
  makedirs save_dir w = (Val tt, w0) →
  detect_max_grid base_url pano_id face suffix level default_max_check w0
    = (Val (max_x, max_y), w1) →
  0 ≤ max_x → 0 ≤ max_y →
  let out_path := path_join save_dir (face +:+ ".jpg") in
  let face_dir := path_join (path_join TEMP_DIR pano_id) face in
  let cells := grid_cells max_x max_y in
  let blank := Blank ((max_x + 1) * TILE_SIZE) ((max_y + 1) * TILE_SIZE) in
  (download_and_merge_face base_url pano_id face suffix save_dir level w).1 ≠ Overflow
  ∧ download_and_merge_face base_url pano_id face suffix save_dir level w
    = (let* tiles := resolve_cells base_url pano_id face suffix face_dir level cells in
       image_save out_path (paste_all blank (placed cells tiles)) ;;;
       ret (Some out_path)) w1
  ∧ (∀ x y, (x, y) ∈ cells ↔ 0 ≤ x ≤ max_x ∧ 0 ≤ y ≤ max_y)
  ∧ (∀ r w',
       download_and_merge_face base_url pano_id face suffix save_dir level w
         = (Val r, w') →
       r = Some out_path
       ∧ ∃ tiles w2 pano,
           resolve_cells base_url pano_id face suffix face_dir level cells w1
             = (Val tiles, w2)
           ∧ length tiles = length cells
           ∧ files w' !! out_path = Some (Jpeg pano)
           ∧ size pano = ((max_x + 1) * TILE_SIZE, (max_y + 1) * TILE_SIZE)
           ∧ ground pano = blank
           ∧ pastes pano = placed cells tiles
           ∧ (∀ i x y t,
                cells !! i = Some (x, y) → tiles !! i = Some (Some t) →
                (t, (y * TILE_SIZE, x * TILE_SIZE)) ∈ pastes pano)
           ∧ Forall (λ p : image * (Z * Z),
               ∃ x y, (x, y) ∈ cells
                      ∧ p.2 = (y * TILE_SIZE, x * TILE_SIZE)
                      ∧ (x ≠ y → p.2 ≠ (x * TILE_SIZE, y * TILE_SIZE)))
               (pastes pano))
  ∧ (∀ x y pano wa pano' wb,
       paste_cell base_url pano_id face suffix face_dir level x pano y wa
         = (Val pano', wb) →
       match get_tile_with_fallback (depth_for level) base_url pano_id face level x y
               suffix face_dir wa with
       | (Val (Some t), _) => pano' = Paste pano t (y * TILE_SIZE, x * TILE_SIZE)
       | _ => pano' = pano
       end).
Proof.
  intros Hmk Hgrid Hx Hy out_path face_dir cells blank.
  assert (download_and_merge_face base_url pano_id face suffix save_dir level w
          = (let* tiles := resolve_cells base_url pano_id face suffix face_dir level
                             cells in
             image_save out_path (paste_all blank (placed cells tiles)) ;;;
             ret (Some out_path)) w1) as Heq.
  { unfold download_and_merge_face.
    rewrite (bind_val _ _ _ _ _ Hmk), (bind_val _ _ _ _ _ Hgrid).
    cbn [fst snd].
    replace (max_x <? 0) with false by lia.
    replace (max_y <? 0) with false by lia.
    cbn [orb].
    erewrite bind_ext;
      [| rewrite paste_grid_flat; apply paste_cells_resolve | reflexivity].
    rewrite bind_assoc. apply bind_ext; [done |]. by intros tiles w2 _. }
  split; [apply download_and_merge_face_no_overflow |].
  split; [exact Heq |].
  split; [intros x y; apply elem_of_grid_cells |].
  split.
  - intros r w' Hrun. rewrite Heq in Hrun.
    apply bind_inv_val in Hrun as (tiles & w2 & Hres & Hsave).
    apply bind_inv_val in Hsave as ([] & w3 & Hwrite & Hret).
    injection Hret as <- <-.
    split; [done |].
    exists tiles, w2, (paste_all blank (placed cells tiles)).
    split; [done |].
    split; [by eapply resolve_cells_length |].
    split.
    { unfold image_save in Hwrite.
      destruct (write_fails _); [done |].
      destruct (write_breaks _); [done |]. injection Hwrite as <-.
      cbn. by rewrite lookup_insert_eq. }
    split; [by rewrite size_ground, ground_paste_all |].
    split; [apply ground_paste_all |].
    split; [by rewrite pastes_paste_all |].
    split.
    + intros i x y t Hcell Htile. rewrite pastes_paste_all. cbn [pastes app].
      by eapply elem_of_placed.
    + rewrite pastes_paste_all. cbn [pastes app]. apply placed_swapped.
  - intros x y pano0 wa pano' wb Hcell.
    apply paste_cell_inv in Hcell as [(t & -> & ->) | [-> ->]]; done.
Qed.

(** ** Requests of a panorama *)

Lemma emits_get_tile_level0 P base_url pano_id face x y suffix cache_dir :
  P (GET (tile_url base_url pano_id face 0 x y suffix)) →
  emits P (get_tile_with_fallback (depth_for 0) base_url pano_id face 0 x y
             suffix cache_dir).
Proof.
  intros Hurl. eapply emits_ext; [intros w; apply get_tile_level0 |].
  apply emits_bind; [by apply emits_fetch_tile |].
  intros [|]; [| apply emits_ret].
  apply emits_bind; [apply emits_image_open |]. intros im. apply emits_ret.
Qed.

Lemma emits_download_and_merge_face_level0 P base_url pano_id face suffix save_dir :
  (∀ r x y, url_of r = tile_url base_url pano_id face 0 x y suffix → P r) →
  emits P (download_and_merge_face base_url pano_id face suffix save_dir 0).
Proof.
  intros HP. unfold download_and_merge_face.
  apply emits_bind; [apply emits_makedirs |]. intros _.
  apply emits_bind.
  { unfold detect_max_grid.
    apply emits_bind; [apply emits_scan; intros i; by eapply HP |]. intros max_x.
    apply emits_bind; [apply emits_scan; intros i; by eapply HP |]. intros max_y.
    apply emits_ret. }
  intros grid. destruct (_ || _); [apply emits_ret |].
  apply emits_bind.
  { unfold paste_grid. apply emits_for_fold. intros pano x _.
    apply emits_for_fold. intros pano' y _. unfold paste_cell.
    apply emits_bind; [apply emits_get_tile_level0; by eapply HP |].
    intros [t |]; apply emits_ret. }
  intros pano. apply emits_bind; [apply emits_image_save |]. intros _. apply emits_ret.
Qed.

Lemma emits_merge_to_equirect P pano_dir out_path face_size :
  emits P (merge_to_equirect pano_dir out_path face_size).
Proof.
  assert (∀ d key, emits P (subscript d key)) as Hsub.
  { intros d key. unfold subscript. destruct (d !! key); [apply emits_ret | apply emits_raise]. }
  unfold merge_to_equirect. apply emits_bind.
  { apply emits_for_fold. intros acc face _. unfold load_face.
    apply emits_bind; [by apply emits_silent |].
    intros [|]; cbn [negb]; [| apply emits_raise].
    apply emits_bind; [apply emits_image_open |]. intros im. apply emits_ret. }
  intros face_images. do 6 (apply emits_bind; [apply Hsub |]; intros ?).
  apply emits_bind; [| intros equi; apply emits_image_save].
  unfold c2e. destruct (cube_ok _ _ _ _ _ _ _); [apply emits_ret | apply emits_raise].
Qed.

Lemma emits_process_pano loc pano_id :
  emits (level0_request (baseUrl loc) pano_id (build_version_suffix (version loc)))
    (process_pano loc pano_id).
Proof.
  unfold process_pano. apply emits_bind.
  - unfold assemble_faces. apply emits_for_fold. intros face_size face Hface.
    unfold assemble_face. apply emits_bind.
    + apply emits_download_and_merge_face_level0. intros r x y Hr.
      by exists face, x, y.
    + intros [p |]; destruct face_size; try apply emits_ret.
      destruct (String.eqb p ""); [apply emits_ret |].
      apply emits_bind; [apply emits_image_open |]. intros im. apply emits_ret.
  - intros [n |]; cbn [finish_pano]; [| apply emits_ret].
    destruct (n =? 0); [apply emits_ret |].
    apply emits_bind; [apply emits_merge_to_equirect |]. intros _.
    apply emits_bind; [by apply emits_silent | intros _; by apply emits_silent].
Qed.

(** C6: the pipeline works at level 0 only.  At level 0 the fallback loop
    has no level to visit, so the resolver gives the decoded level-0 tile
    when the fetcher succeeds and nothing when it fails; a tile that fails
    leaves the canvas as it was (a gap); and every request that the code
    makes while a panorama is processed, probes and fetches alike, asks for
    a level-0 tile of one of the six faces: no coarser tile is ever
    fetched. *)
Theorem process_pano_level0_only :
  range_down 0 = []
  ∧ (∀ depth base_url pano_id face x y suffix cache_dir w,
       get_tile_with_fallback (S depth) base_url pano_id face 0 x y suffix cache_dir w
       = match fetch_tile (tile_url base_url pano_id face 0 x y suffix)
                 (tile_path cache_dir 0 x y) w with
         | (Val true, w1) =>
             (let* im := image_open (tile_path cache_dir 0 x y) in ret (Some im)) w1
         | (Val false, w1) => (Val None, w1)
         | (Exc e, w1) => (Exc e, w1)
         | (Overflow, w1) => (Overflow, w1)
         end)
  ∧ (∀ base_url pano_id face suffix face_dir x y pano w w1,
       fetch_tile (tile_url base_url pano_id face 0 x y suffix)
         (tile_path face_dir 0 x y) w = (Val false, w1) →
       paste_cell base_url pano_id face suffix face_dir 0 x pano y w = (Val pano, w1))
  ∧ (∀ loc pano_id face_size face,
       assemble_face loc pano_id face_size face
       = (let* face_path := download_and_merge_face (baseUrl loc) pano_id face
                              (build_version_suffix (version loc))
                              (pano_dir_of loc pano_id) 0 in
          match face_path, face_size with
          | Some p, None =>
              if String.eqb p "" then ret face_size
              else let* im := image_open p in ret (Some (size im).1)
          | _, _ => ret face_size
          end))
  ∧ (∀ loc pano_id w,
       ∃ new,
         requests (process_pano loc pano_id w).2 = requests w ++ new
         ∧ Forall (level0_request (baseUrl loc) pano_id
                     (build_version_suffix (version loc))) new).
Proof.
  split; [done |]. split; [| split; [| split; [done |]]].
  - intros. rewrite get_tile_level0. unfold bind at 1.
    by destruct (fetch_tile _ _ w) as [[[|] | e |] w1].
  - intros * Hmiss. unfold paste_cell. change (depth_for 0) with 1%nat.
    unfold bind at 1. rewrite get_tile_level0. by rewrite (bind_val _ _ _ _ _ Hmiss).
  - apply emits_process_pano.
Qed.

(** ** Projection and cleanup *)

(** Loading the faces stops at the first face whose file is missing. *)
Lemma load_faces_missing pano_dir before face after acc w :
  (∀ g, g ∈ before → ∃ im, files w !! face_file pano_dir g = Some (Jpeg im)) →
  path_exists (face_file pano_dir face) w = false →
  for_fold (before ++ face :: after) (load_face pano_dir) acc w
  = (Exc (FileNotFoundError (face_file pano_dir face)), w).
Proof.
  revert acc. induction before as [| g before IH]; intros acc Hbefore Hmissing.
  - cbn [app for_fold]. unfold load_face at 1, bind, os_path_exists.
    by rewrite Hmissing.
  - cbn [app for_fold].
    destruct (Hbefore g (list_elem_of_here _ _)) as [im Hg].
    unfold load_face at 1, bind at 1, bind at 1, os_path_exists, path_exists.
    rewrite bool_decide_true by (by rewrite Hg). cbn [orb negb].
    unfold bind at 1, image_open. rewrite Hg. unfold ret at 1.
    apply IH; [| done]. intros g' Hg'. by apply Hbefore, list_elem_of_further.
Qed.

Lemma merge_to_equirect_missing pano_dir out_path face_size before face after w :
  FACES = before ++ face :: after →
  (∀ g, g ∈ before → ∃ im, files w !! face_file pano_dir g = Some (Jpeg im)) →
  path_exists (face_file pano_dir face) w = false →
  merge_to_equirect pano_dir out_path face_size w
  = (Exc (FileNotFoundError (face_file pano_dir face)), w).
Proof.
  intros Hsplit Hbefore Hmissing. unfold merge_to_equirect.
  apply bind_exc. rewrite Hsplit. by apply load_faces_missing.
Qed.

Lemma rmtree_files dir w p :
  files (rmtree dir w).2 !! p = if survives dir p then files w !! p else None.
Proof.
  cbn. rewrite map_lookup_filter. cbn.
  destruct (files w !! p) as [data |]; cbn; [| by destruct (survives dir p)].
  destruct (survives dir p); case_guard; naive_solver.
Qed.

Lemma rmtree_dirs dir w p :
  p ∈ dirs (rmtree dir w).2 ↔ p ∈ dirs w ∧ survives dir p = true.
Proof.
  cbn. rewrite elem_of_filter. rewrite Is_true_true. tauto.
Qed.

(** C1, amended: a face file missing at projection time.  The face files
    are checked in the order of [FACES]; at the first one that is missing,
    the faces before it having loaded, the projection raises
    [FileNotFoundError].  Nothing catches it: it leaves [process_pano]
    before the cleanup, and it leaves [main], whose result is this exception
    in the world the failed panorama left behind.  The panoramas and
    locations after it are not processed. *)
Theorem missing_face_aborts_run
    earlier loc ids_done pano_id ids_left later w w1 w2 w3 n before face after :
  panoramas loc = ids_done ++ pano_id :: ids_left →
  main earlier w = (Val tt, w1) →
  for_each ids_done (process_pano loc) w1 = (Val tt, w2) →
  assemble_faces loc pano_id w2 = (Val (Some n), w3) →
  n ≠ 0 →
  FACES = before ++ face :: after →
  (∀ g, g ∈ before →
     ∃ im, files w3 !! face_file (pano_dir_of loc pano_id) g = Some (Jpeg im)) →
  path_exists (face_file (pano_dir_of loc pano_id) face) w3 = false →
  let e := FileNotFoundError (face_file (pano_dir_of loc pano_id) face) in
  process_pano loc pano_id w2 = (Exc e, w3)
  ∧ main (earlier ++ loc :: later) w = (Exc e, w3).
Proof.
  intros Hids Hearlier Hdone Hfaces Hn Hsplit Hbefore Hmissing e.
  assert (process_pano loc pano_id w2 = (Exc e, w3)) as Hpano.
  { unfold process_pano. rewrite (bind_val _ _ _ _ _ Hfaces). cbn [finish_pano].
    replace (n =? 0) with false by lia.
    apply bind_exc. by eapply merge_to_equirect_missing. }
  split; [done |]. unfold main.
  eapply for_each_abort; [exact Hearlier |].
  rewrite Hids. eapply for_each_abort; [exact Hdone | exact Hpano].
Qed.

(** C4, amended: cleanup.  The purge sits under [if face_size:] and after
    the projection.  When the face loop produced a face and the projection
    returns, [process_pano] removes what can be deleted below the
    panorama's face directory and below the temp-tile root, reporting no
    deletion failure, and leaves everything else as the projection left it.
    When no face was produced it purges nothing, and when the projection
    raises the exception leaves [process_pano] before any purge. *)
Theorem process_pano_cleanup loc pano_id w face_size w1 :
  assemble_faces loc pano_id w = (Val face_size, w1) →
  let pano_dir := pano_dir_of loc pano_id in
  let equi_path := path_join (path_join OUT_DIR (name loc)) (pano_id +:+ ".jpg") in
  match face_size with
  | None => process_pano loc pano_id w = (Val tt, w1)
  | Some n =>
      if n =? 0 then process_pano loc pano_id w = (Val tt, w1)
      else
        match merge_to_equirect pano_dir equi_path n w1 with
        | (Val _, w2) =>
            ∃ w',
              process_pano loc pano_id w = (Val tt, w')
              ∧ requests w' = requests w2
              ∧ (∀ p, files w' !! p
                      = if survives pano_dir p && survives TEMP_DIR p
                        then files w2 !! p else None)
              ∧ (∀ p, p ∈ dirs w' ↔
                      p ∈ dirs w2
                      ∧ survives pano_dir p && survives TEMP_DIR p = true)
              ∧ (∀ p, under pano_dir p || under TEMP_DIR p = true →
                      delete_fails p = false →
                      files w' !! p = None ∧ p ∉ dirs w')
        | (Exc e, w2) => process_pano loc pano_id w = (Exc e, w2)
        | (Overflow, w2) => process_pano loc pano_id w = (Overflow, w2)
        end
  end.
Proof.
  intros Hfaces pano_dir equi_path. unfold process_pano.
  rewrite (bind_val _ _ _ _ _ Hfaces).
  destruct face_size as [n |]; [| done]. cbn [finish_pano].
  destruct (n =? 0); [done |]. fold pano_dir equi_path.
  destruct (merge_to_equirect pano_dir equi_path n w1) as [[[] | e |] w2] eqn:Hmerge;
    [| by apply bind_exc | by unfold bind at 1; rewrite Hmerge].
  rewrite (bind_val _ _ _ _ _ Hmerge).
  eexists. split; [done |]. split; [done |].
  assert (∀ p, files (rmtree TEMP_DIR (rmtree pano_dir w2).2).2 !! p
               = if survives pano_dir p && survives TEMP_DIR p
                 then files w2 !! p else None) as Hfiles.
  { intros p. rewrite !rmtree_files.
    by destruct (survives pano_dir p), (survives TEMP_DIR p). }
  assert (∀ p, p ∈ dirs (rmtree TEMP_DIR (rmtree pano_dir w2).2).2 ↔
               p ∈ dirs w2 ∧ survives pano_dir p && survives TEMP_DIR p = true) as Hdirs.
  { intros p. rewrite !rmtree_dirs, andb_true_iff. tauto. }
  split; [exact Hfiles |]. split; [exact Hdirs |].
  intros p Hunder Hdel.
  assert (survives pano_dir p && survives TEMP_DIR p = false) as Hgone.
  { unfold survives. rewrite Hdel, !orb_false_r.
    destruct (under pano_dir p), (under TEMP_DIR p); done. }
  split.
  - by rewrite Hfiles, Hgone.
  - rewrite Hdirs, Hgone. by intros [_ ?].
Qed.

(** C9, amended: the fetcher.  It never raises.  When the destination
    exists it returns success at once, without any request and without
    touching the world.  Otherwise it calls [session.get] exactly once,
    which follows redirects, and returns success exactly when the answer
    that ends the redirects has status 200 and the body is persisted (parent
    directories created, file opened and written); any other status, a
    timeout or transport error, too many redirects, or a failing write
    gives failure.  A destination that exists afterwards, which is the case
    after every success, makes every later call a cache hit that sends
    nothing.  A failed call leaves the files as they were, with one
    exception: the file is created when it is opened, so a write that breaks
    after that leaves the file behind with whatever reached it, the call
    returns failure, and the next call takes that file for a cache hit. *)
Theorem fetch_tile_outcome url out_path w :
  let answer := get_answer (Nat.pred max_redirects) url in
  ∃ ok w',
    fetch_tile url out_path w = (Val ok, w')
    ∧ (path_exists out_path w = true → ok = true ∧ w' = w)
    ∧ (path_exists out_path w = false →
         requests w' = requests w ++ [GET url]
         ∧ (ok = true ↔
              ∃ body, answer = Some (200, body) ∧ can_persist out_path = true)
         ∧ (∀ body, ok = true → answer = Some (200, body) →
              files w' = <[out_path := body]> (files w)
              ∧ dirname out_path ∈ dirs w')
         ∧ (ok = false → write_breaks out_path = None → files w' = files w)
         ∧ (ok = false →
              files w' = files w
              ∨ ∃ body leftover,
                  answer = Some (200, body)
                  ∧ write_breaks out_path = Some leftover
                  ∧ files w' = <[out_path := leftover]> (files w))
         ∧ (∀ body leftover,
              answer = Some (200, body) →
              String.eqb (dirname out_path) "" = false →
              write_fails (dirname out_path) = false →
              write_fails out_path = false →
              write_breaks out_path = Some leftover →
              ok = false
              ∧ files w' = <[out_path := leftover]> (files w)
              ∧ path_exists out_path w' = true))
    ∧ (ok = true → path_exists out_path w' = true)
    ∧ (path_exists out_path w' = true →
         ∀ url', fetch_tile url' out_path w' = (Val true, w')).
Proof.
  clear delete_fails. intros answer.
  assert (∀ w0, path_exists out_path w0 = true →
                ∀ url', fetch_tile url' out_path w0 = (Val true, w0)) as Hhit.
  { intros w0 Hw0 url'. rewrite fetch_tile_cases. by rewrite Hw0. }
  assert (∀ (b : blob) (f : World → World),
            path_exists out_path (set_files (λ fs, <[out_path := b]> fs) (f w)) = true)
    as Hnew.
  { intros b f. unfold path_exists. cbn. rewrite lookup_insert_eq.
    by rewrite bool_decide_true by eauto. }
  rewrite fetch_tile_cases. unfold can_persist. fold answer.
  destruct (path_exists out_path w) eqn:Hcached.
  { exists true, w. split; [done |]. split; [done |]. split; [done |].
    split; [done |]. intros _. by apply Hhit. }
  assert (∀ w', requests w' = requests w ++ [GET url] →
                files w' = files w →
                (∀ body, answer = Some (200, body) →
                   negb (String.eqb (dirname out_path) "")
                   && negb (write_fails (dirname out_path))
                   && negb (write_fails out_path) = false) →
                ∃ ok w'',
                  (Val false, w') = (Val ok, w'')
                  ∧ (false = true → ok = true ∧ w'' = w)
                  ∧ (false = false →
                       requests w'' = requests w ++ [GET url]
                       ∧ (ok = true ↔
                            ∃ body, answer = Some (200, body)
                                    ∧ negb (String.eqb (dirname out_path) "")
                                      && negb (write_fails (dirname out_path))
                                      && negb (write_fails out_path)
                                      && bool_decide (write_breaks out_path = None)
                                      = true)
                       ∧ (∀ body, ok = true → answer = Some (200, body) →
                            files w'' = <[out_path := body]> (files w)
                            ∧ dirname out_path ∈ dirs w'')
                       ∧ (ok = false → write_breaks out_path = None →
                            files w'' = files w)
                       ∧ (ok = false →
                            files w'' = files w
                            ∨ ∃ body leftover,
                                answer = Some (200, body)
                                ∧ write_breaks out_path = Some leftover
                                ∧ files w'' = <[out_path := leftover]> (files w))
                       ∧ (∀ body leftover,
                            answer = Some (200, body) →
                            String.eqb (dirname out_path) "" = false →
                            write_fails (dirname out_path) = false →
                            write_fails out_path = false →
                            write_breaks out_path = Some leftover →
                            ok = false
                            ∧ files w'' = <[out_path := leftover]> (files w)
                            ∧ path_exists out_path w'' = true))
                  ∧ (ok = true → path_exists out_path w'' = true)
                  ∧ (path_exists out_path w'' = true →
                       ∀ url', fetch_tile url' out_path w'' = (Val true, w'')))
    as Hfail.
  { intros w' Hreq Hfiles Hno. exists false, w'.
    split; [done |]. split; [done |]. split; [| split; [done | apply Hhit]].
    intros _. split; [done |]. split.
    { split; [done |]. intros (body & Hans & Hok).
      rewrite (Hno body Hans) in Hok. done. }
    split; [done |]. split; [done |]. split; [by left |].
    intros body leftover Hans Hdir Hmk Hopen _.
    specialize (Hno body Hans). rewrite Hdir, Hmk, Hopen in Hno. done. }
  destruct answer as [[code body] |] eqn:Hanswer;
    [| by apply Hfail].
  destruct (code =? 200) eqn:Hcode;
    [| apply Hfail; [done | done |]; intros body' [= -> _]; done].
  apply Z.eqb_eq in Hcode as ->.
  destruct (String.eqb (dirname out_path) "") eqn:Hdir;
    [by apply Hfail |].
  destruct (write_fails (dirname out_path)) eqn:Hmk;
    [by apply Hfail |].
  destruct (write_fails out_path) eqn:Hopen; cbn [negb andb].
  { apply Hfail; [done | done |]. intros. by rewrite ?Hdir, ?Hmk, ?Hopen. }
  destruct (write_breaks out_path) as [leftover |] eqn:Hbreak.
  - eexists false, _. split; [done |]. split; [done |].
    split; [| split; [done | apply Hhit]].
    intros _. split; [done |]. split.
    { split; [done |]. intros (body' & _ & Hok).
      rewrite bool_decide_false in Hok by done. done. }
    split; [done |]. split; [done |]. split.
    { right. by exists body, leftover. }
    intros body' leftover' _ _ _ _ [= <-]. split; [done |]. split; [done |].
    apply (Hnew leftover (λ w0, set_dirs _ (sent (GET url) w0))).
  - eexists true, _. split; [done |]. split; [done |]. split.
    + intros _. split; [done |]. split.
      { split; [| done]. intros _. exists body.
        by rewrite bool_decide_true. }
      split.
      { intros body' _ [= <-]. split; [done |]. cbn. set_solver. }
      split; [done |]. split; [done |]. done.
    + split; [| apply Hhit].
      intros _. apply (Hnew body (λ w0, set_dirs _ (sent (GET url) w0))).
Qed.

(** C7: the grid prober.  Along the row [(level, k, 0)] it sends existence
    checks for k = 0, 1, 2, ... and stops at the first miss or after 10
    probes; [max_x] is the index of the last hit, -1 when [(level, 0, 0)]
    misses; [max_y] likewise along the column [(level, 0, k)].  It never
    raises, and it is monotonic: if the check of tile [(level, k, 0)] misses,
    the reported [max_x] is below [k]. *)
Theorem detect_max_grid_probes base_url pano_id face suffix level w :
  let row := λ k, tile_url base_url pano_id face level k 0 suffix in
  let column := λ k, tile_url base_url pano_id face level 0 k suffix in
  ∃ max_x max_y w',
    detect_max_grid base_url pano_id face suffix level default_max_check w
      = (Val (max_x, max_y), w')
    ∧ -1 ≤ max_x < 10 ∧ -1 ≤ max_y < 10
    ∧ (∀ k, 0 ≤ k ≤ max_x → head_ok (row k) = true)
    ∧ (max_x < 9 → head_ok (row (max_x + 1)) = false)
    ∧ (∀ k, 0 ≤ k ≤ max_y → head_ok (column k) = true)
    ∧ (max_y < 9 → head_ok (column (max_y + 1)) = false)
    ∧ requests w' = requests w
        ++ ((λ k, HEAD (row k)) <$> seqZ 0 (Z.min (max_x + 2) 10))
        ++ ((λ k, HEAD (column k)) <$> seqZ 0 (Z.min (max_y + 2) 10))
    ∧ files w' = files w ∧ dirs w' = dirs w
    ∧ (∀ k, 0 ≤ k → head_ok (row k) = false → max_x < k)
    ∧ (∀ k, 0 ≤ k → head_ok (column k) = false → max_y < k).
Proof.
  intros row column. unfold detect_max_grid, default_max_check, range.
  destruct (scan_seqZ row 10 0 w)
    as (max_x & w1 & Hx & Hxr & Hxhit & Hxmiss & Hxreq & Hxf & Hxd).
  destruct (scan_seqZ column 10 0 w1)
    as (max_y & w2 & Hy & Hyr & Hyhit & Hymiss & Hyreq & Hyf & Hyd).
  change (Z.of_nat 10) with 10 in *. change (0 - 1) with (-1) in *.
  exists max_x, max_y, w2.
  rewrite (bind_val _ _ _ _ _ Hx), (bind_val _ _ _ _ _ Hy).
  split; [done |]. split; [lia |]. split; [lia |].
  split; [done |]. split; [intros; apply Hxmiss; lia |].
  split; [done |]. split; [intros; apply Hymiss; lia |].
  split; [| split; [congruence | split; [congruence | split]]].
  - rewrite Hyreq, Hxreq, <- app_assoc.
    by replace (max_x - 0 + 2) with (max_x + 2) by lia;
       replace (max_y - 0 + 2) with (max_y + 2) by lia.
  - intros k Hk Hmiss. destruct (decide (max_x < k)) as [| Hge]; [done |].
    rewrite Hxhit in Hmiss by lia. done.
  - intros k Hk Hmiss. destruct (decide (max_y < k)) as [| Hge]; [done |].
    rewrite Hyhit in Hmiss by lia. done.
Qed.

(** C10: the resolver terminates.  The levels tried by the fallback loop lie
    in [0, level) (none at level 0), so every nested call is at a smaller
    level that is still non-negative; a call at [level ≥ 0] therefore
    completes within any budget of more than [level] nested frames (the call
    itself and at most [level] recursive calls below it), with the same
    outcome as under the budget [depth_for level]. *)
Theorem get_tile_with_fallback_terminates
    depth base_url pano_id face level x y suffix cache_dir w :
  0 ≤ level →
  (Z.to_nat level < depth)%nat →
  range_down 0 = []
  ∧ Forall (λ fallback_level, 0 ≤ fallback_level < level) (range_down level)
  ∧ (get_tile_with_fallback depth base_url pano_id face level x y suffix cache_dir w).1
      ≠ Overflow
  ∧ get_tile_with_fallback depth base_url pano_id face level x y suffix cache_dir w
    = get_tile_with_fallback (depth_for level) base_url pano_id face level x y
        suffix cache_dir w.
Proof.
  intros Hlevel Hdepth. split; [done |]. split; [| split].
  - apply Forall_forall. intros fl. by rewrite elem_of_range_down.
  - by apply get_tile_no_overflow.
  - apply get_tile_depth_irrelevant; [done | unfold depth_for; lia].
Qed.

(** * Further properties *)

(** ** URL helpers *)

Lemma substring_last_char s c :
  String.substring (String.length s) 1 (s +:+ String c EmptyString) = String c EmptyString.
Proof. induction s as [| a s IH]; [done | exact IH]. Qed.

Lemma length_app_char s c :
  String.length (s +:+ String c EmptyString) = S (String.length s).
Proof.
  induction s as [| a s IH]; [done |].
  change (S (String.length (s +:+ String c EmptyString)) = S (S (String.length s))).
  by rewrite IH.
Qed.

Lemma prefix_app s t : String.prefix s (s +:+ t) = true.
Proof.
  induction s as [| a s IH]; [by destruct t |].
  change (String.prefix (String a s) (String a (s +:+ t)) = true).
  cbn [String.prefix]. destruct (Ascii.ascii_dec a a); [done | congruence].
Qed.

Lemma prefix_refl s : String.prefix s s = true.
Proof.
  induction s as [| a s IH]; [done |]. cbn [String.prefix].
  destruct (Ascii.ascii_dec a a); [done | congruence].
Qed.

Lemma endswith_app_slash s : endswith (s +:+ "/") "/" = true.
Proof.
  unfold endswith. rewrite length_app_char. cbn [String.length].
  replace (S (String.length s) - 1)%nat with (String.length s) by lia.
  rewrite substring_last_char. done.
Qed.

Lemma ensure_slash_ends url : endswith (ensure_slash url) "/" = true.
Proof.
  unfold ensure_slash. destruct (endswith url "/") eqn:Hurl; [done |].
  apply endswith_app_slash.
Qed.

(** [ensure_slash] gives a URL that ends with a slash: it keeps a URL that
    already does and appends exactly one slash to any other; so it only
    ever appends, and it is idempotent. *)
Theorem ensure_slash_terminated url :
  endswith (ensure_slash url) "/" = true
  ∧ String.prefix url (ensure_slash url) = true
  ∧ (endswith url "/" = true → ensure_slash url = url)
  ∧ (endswith url "/" = false → ensure_slash url = url +:+ "/")
  ∧ ensure_slash (ensure_slash url) = ensure_slash url.
Proof.
  assert (endswith (ensure_slash url) "/" = true) as Hends.
  { unfold ensure_slash. destruct (endswith url "/") eqn:Hurl; [done |].
    apply endswith_app_slash. }
  split; [done |]. split; [| split; [| split]].
  - unfold ensure_slash. destruct (endswith url "/").
    + apply prefix_refl.
    + apply prefix_app.
  - unfold ensure_slash. by intros ->.
  - unfold ensure_slash. by intros ->.
  - unfold ensure_slash at 1. by rewrite Hends.
Qed.

(** [build_version_suffix] is empty exactly for an empty version; any other
    version gives a query string that starts with a question mark, a version
    that already starts with one is kept as it is, and the function is
    idempotent. *)
Theorem build_version_suffix_query version :
  (build_version_suffix version = "" ↔ version = "")
  ∧ (version ≠ "" → startswith (build_version_suffix version) "?" = true)
  ∧ (startswith version "?" = true → build_version_suffix version = version)
  ∧ (version ≠ "" → startswith version "?" = false →
       build_version_suffix version = "?v=" +:+ version)
  ∧ build_version_suffix (build_version_suffix version)
    = build_version_suffix version.
Proof.
  unfold build_version_suffix.
  destruct (String.eqb_spec version "") as [-> | Hne]; [by repeat split |].
  destruct (startswith version "?") eqn:Hq.
  - cbn [negb]. destruct (String.eqb_spec version "") as [| _]; [done |].
    rewrite Hq. by repeat split.
  - split; [by split |]. by repeat split.
Qed.

(** ** Projection *)



(** ** Absent faces *)

Lemma scan_first_miss probe w :
  head_ok (probe 0) = false →
  scan probe (range default_max_check) (-1) w = (Val (-1), sent (HEAD (probe 0)) w).
Proof.
  intros Hmiss. unfold range, default_max_check. rewrite seqZ_cons by lia.
  cbn [scan]. rewrite (bind_val _ _ _ _ _ (url_exists_spec (probe 0) w)).
  by rewrite Hmiss.
Qed.

Lemma scan_first_hit probe w best w' :
  head_ok (probe 0) = true →
  scan probe (range default_max_check) (-1) w = (Val best, w') → 0 ≤ best.
Proof.
  intros Hhit Hscan.
  destruct (scan_seqZ probe 10 0 w) as (best' & w1 & Hscan' & Hrange & _ & Hmiss & _).
  unfold range, default_max_check in Hscan. change (Z.of_nat 10) with 10 in *.
  change (0 - 1) with (-1) in *. rewrite Hscan' in Hscan. injection Hscan as <- <-.
  destruct (decide (0 ≤ best')) as [| Hneg]; [done |].
  specialize (Hmiss ltac:(lia)). replace (best' + 1) with 0 in Hmiss by lia.
  by rewrite Hhit in Hmiss.
Qed.

(** A face is absent exactly when its tile (level, 0, 0) is missing: both
    scans of the prober start at that tile.  The face assembler then returns
    [None] after two existence checks of the same URL, without any GET and
    without writing a file; only the directory for the faces has been
    created.  When that tile is there, the assembler never returns [None]. *)
Theorem download_and_merge_face_absent
    base_url pano_id face suffix save_dir level w w0 :
  makedirs save_dir w = (Val tt, w0) →
  let corner := tile_url base_url pano_id face level 0 0 suffix in
  (head_ok corner = false →
     download_and_merge_face base_url pano_id face suffix save_dir level w
     = (Val None, mkWorld (files w) (dirs w0)
                    (requests w ++ [HEAD corner; HEAD corner])))
  ∧ (head_ok corner = true →
     ∀ w', download_and_merge_face base_url pano_id face suffix save_dir level w
           ≠ (Val None, w')).
Proof.
  intros Hmk corner. unfold download_and_merge_face.
  rewrite (bind_val _ _ _ _ _ Hmk).
  assert (files w0 = files w ∧ requests w0 = requests w) as [Hfiles Hreqs].
  { unfold makedirs in Hmk. destruct (String.eqb save_dir ""); [done |].
    destruct (write_fails save_dir); [done |]. by injection Hmk as <-. }
  split.
  - intros Hmiss. unfold detect_max_grid.
    unfold bind at 1. unfold bind at 1.
    rewrite (scan_first_miss (λ x, tile_url base_url pano_id face level x 0 suffix))
      by done.
    unfold bind at 1.
    rewrite (scan_first_miss (λ y, tile_url base_url pano_id face level 0 y suffix))
      by done.
    cbn. unfold sent. cbn. rewrite Hfiles, Hreqs, <- app_assoc. done.
  - intros Hhit w' Hrun.
    apply bind_inv_val in Hrun as ([max_x max_y] & w1 & Hgrid & Hrest).
    unfold detect_max_grid in Hgrid.
    apply bind_inv_val in Hgrid as (mx & w2 & Hx & Hgrid).
    apply bind_inv_val in Hgrid as (my & w3 & Hy & Hret).
    injection Hret as <- <- <-.
    apply scan_first_hit in Hx; [| done]. apply scan_first_hit in Hy; [| done].
    cbn [fst snd] in Hrest.
    replace (mx <? 0) with false in Hrest by lia.
    replace (my <? 0) with false in Hrest by lia.
    cbn [orb] in Hrest.
    apply bind_inv_val in Hrest as (pano & w4 & _ & Hsave).
    apply bind_inv_val in Hsave as ([] & w5 & _ & Hret). done.
Qed.

Lemma path_join_nonempty a b : a ≠ "" → path_join a b ≠ "".
Proof.
  intros Ha. unfold path_join. destruct (startswith b "/") eqn:Hb.
  { intros ->. done. }
  destruct (String.eqb a "" || endswith a "/"); by destruct a.
Qed.

Lemma makedirs_pano_dir loc pano_id w :
  write_fails (pano_dir_of loc pano_id) = false →
  makedirs (pano_dir_of loc pano_id) w
  = (Val tt, set_dirs (λ d, list_to_set (dir_chain "" (pano_dir_of loc pano_id))
                            ∪ {[pano_dir_of loc pano_id]} ∪ d) w).
Proof.
  intros Hw. unfold makedirs. rewrite Hw.
  assert (pano_dir_of loc pano_id ≠ "") as Hne.
  { unfold pano_dir_of. by apply path_join_nonempty, path_join_nonempty. }
  apply String.eqb_neq in Hne. by rewrite Hne.
Qed.

Lemma download_and_merge_face_absent_aux loc pano_id face w :
  write_fails (pano_dir_of loc pano_id) = false →
  let corner := tile_url (baseUrl loc) pano_id face 0 0 0
                  (build_version_suffix (version loc)) in
  head_ok corner = false →
  download_and_merge_face (baseUrl loc) pano_id face
    (build_version_suffix (version loc)) (pano_dir_of loc pano_id) 0 w
  = (Val None,
     mkWorld (files w)
       (list_to_set (dir_chain "" (pano_dir_of loc pano_id))
        ∪ {[pano_dir_of loc pano_id]} ∪ dirs w)
       (requests w ++ [HEAD corner; HEAD corner])).
Proof.
  intros Hw corner Hmiss.
  unfold download_and_merge_face.
  rewrite (bind_val _ _ _ _ _ (makedirs_pano_dir loc pano_id w Hw)).
  unfold detect_max_grid. unfold bind at 1. unfold bind at 1.
  rewrite (scan_first_miss (λ x, tile_url _ pano_id face 0 x 0 _)) by done.
  unfold bind at 1.
  rewrite (scan_first_miss (λ y, tile_url _ pano_id face 0 0 y _)) by done.
  cbn. unfold sent. cbn. by rewrite <- app_assoc.
Qed.

Lemma assemble_faces_absent loc pano_id faces face_size w :
  (∀ face, face ∈ faces →
     head_ok (tile_url (baseUrl loc) pano_id face 0 0 0
                (build_version_suffix (version loc))) = false) →
  write_fails (pano_dir_of loc pano_id) = false →
  ∃ w',
    for_fold faces (assemble_face loc pano_id) face_size w = (Val face_size, w')
    ∧ files w' = files w
    ∧ dirs w ⊆ dirs w'
    ∧ dirs w' ⊆ list_to_set (dir_chain "" (pano_dir_of loc pano_id))
               ∪ {[pano_dir_of loc pano_id]} ∪ dirs w
    ∧ (faces ≠ [] → pano_dir_of loc pano_id ∈ dirs w')
    ∧ requests w'
      = requests w
        ++ (faces ≫= λ face,
              let corner := tile_url (baseUrl loc) pano_id face 0 0 0
                              (build_version_suffix (version loc)) in
              [HEAD corner; HEAD corner]).
Proof.
  intros Hmiss Hw. revert w.
  induction faces as [| face faces IH]; intros w.
  { exists w. cbn. rewrite app_nil_r. repeat split; [done | set_solver | done]. }
  pose proof (download_and_merge_face_absent_aux loc pano_id face w Hw
                (Hmiss face (list_elem_of_here _ _))) as Hface.
  destruct (IH (λ f Hf, Hmiss f (list_elem_of_further _ _ _ Hf))
              (mkWorld (files w)
                 (list_to_set (dir_chain "" (pano_dir_of loc pano_id))
                  ∪ {[pano_dir_of loc pano_id]} ∪ dirs w)
                 (requests w
                  ++ [HEAD (tile_url (baseUrl loc) pano_id face 0 0 0
                              (build_version_suffix (version loc)));
                      HEAD (tile_url (baseUrl loc) pano_id face 0 0 0
                              (build_version_suffix (version loc)))])))
    as (w' & Hrun & Hfiles & Hsub & Hsup & _ & Hreqs).
  exists w'. cbn [for_fold]. unfold assemble_face at 1, bind at 1, bind at 1.
  rewrite Hface. unfold ret at 1. rewrite Hrun.
  cbn [files dirs requests] in Hfiles, Hsub, Hsup, Hreqs.
  split; [by destruct face_size |]. split; [done |].
  split; [| split; [| split]].
  - etrans; [| exact Hsub]. apply union_subseteq_r.
  - etrans; [exact Hsup |]. apply union_least; [apply union_subseteq_l | done].
  - intros _. apply Hsub. apply elem_of_union_l, elem_of_union_r. by apply elem_of_singleton.
  - rewrite Hreqs, <- app_assoc. done.
Qed.

(** A panorama none of whose faces has a tile (0, 0) at level 0:
    [process_pano] returns normally after twelve existence checks, two per
    face in the order of [FACES]; it sends no GET, writes no file, runs
    neither projection nor cleanup, and leaves the empty directory of the
    panorama behind. *)
Theorem process_pano_absent loc pano_id w :
  (∀ face, face ∈ FACES →
     head_ok (tile_url (baseUrl loc) pano_id face 0 0 0
                (build_version_suffix (version loc))) = false) →
  write_fails (pano_dir_of loc pano_id) = false →
  ∃ w',
    process_pano loc pano_id w = (Val tt, w')
    ∧ files w' = files w
    ∧ pano_dir_of loc pano_id ∈ dirs w'
    ∧ dirs w ⊆ dirs w'
    ∧ requests w'
      = requests w
        ++ (FACES ≫= λ face,
              let corner := tile_url (baseUrl loc) pano_id face 0 0 0
                              (build_version_suffix (version loc)) in
              [HEAD corner; HEAD corner])
    ∧ length (requests w') = (length (requests w) + 12)%nat.
Proof.
  intros Hmiss Hw.
  destruct (assemble_faces_absent loc pano_id FACES None w Hmiss Hw)
    as (w' & Hrun & Hfiles & Hsub & _ & Hdir & Hreqs).
  exists w'. unfold process_pano, assemble_faces.
  rewrite (bind_val _ _ _ _ _ Hrun). cbn [finish_pano].
  split; [done |]. split; [done |]. split; [by apply Hdir |]. split; [done |].
  split; [done |]. rewrite Hreqs, length_app. done.
Qed.

(** ** What the resolver asks for, and what it keeps *)

Lemma emits_mono {A} (P Q : request → Prop) (m : M A) :
  (∀ r, P r → Q r) → emits P m → emits Q m.
Proof.
  intros HPQ Hm w. destruct (Hm w) as (new & Hreq & Hnew).
  exists new. split; [done |]. by eapply Forall_impl.
Qed.

Lemma emits_for_first {A B} P (xs : list A) (body : A → M (option B)) :
  (∀ x, x ∈ xs → emits P (body x)) → emits P (for_first xs body).
Proof.
  induction xs as [| x xs IH]; intros Hbody; [apply emits_ret |].
  cbn [for_first]. apply emits_bind; [apply Hbody, list_elem_of_here |].
  intros [b |]; [apply emits_ret |].
  apply IH. intros y Hy. by apply Hbody, list_elem_of_further.
Qed.

Lemma ancestor_request_up base_url pano_id face suffix level x y fallback_level r :
  0 ≤ fallback_level < level →
  ancestor_request base_url pano_id face suffix fallback_level
    (x `div` 2 ^ (level - fallback_level)) (y `div` 2 ^ (level - fallback_level)) r →
  ancestor_request base_url pano_id face suffix level x y r.
Proof.
  intros Hfl (l & Hl & ->). exists l. split; [lia |].
  assert (∀ a, (a `div` 2 ^ (level - fallback_level)) `div` 2 ^ (fallback_level - l)
               = a `div` 2 ^ (level - l)) as Hdiv.
  { intros a. rewrite Z.div_div by (try apply Z.pow_nonzero; try apply Z.pow_pos_nonneg; lia).
    rewrite <- Z.pow_add_r by lia. f_equal. f_equal. lia. }
  by rewrite !Hdiv.
Qed.

Lemma redirect_chain_named budget url location :
  location ∈ redirect_chain budget url → named_by_server (GET location).
Proof.
  revert url. induction budget as [| budget IH]; intros url; cbn [redirect_chain].
  - destruct (server (GET url)) as [| code loc body |]; [by intros ?%elem_of_nil | | by intros ?%elem_of_nil].
    destruct (is_redirect_status code); by intros ?%elem_of_nil.
  - destruct (server (GET url)) as [? ? | code loc body |] eqn:Hans;
      [by intros ?%elem_of_nil | | by intros ?%elem_of_nil].
    destruct (is_redirect_status code) eqn:Hcode; [| by intros ?%elem_of_nil].
    intros [-> | Hin]%elem_of_cons; [| by eapply IH].
    by exists url, code, body.
Qed.

(** What a call puts on the wire is the request itself and downloads that
    the server named. *)
Lemma on_wire_named r a : r ∈ on_wire a → r = a ∨ named_by_server r.
Proof.
  destruct a as [url | url]; cbn [on_wire].
  - intros [-> | Hin%elem_of_nil]%elem_of_cons; [by left | done].
  - intros [-> | Hin]%elem_of_cons; [by left |]. right.
    apply list_elem_of_fmap in Hin as (location & -> & Hin).
    by eapply redirect_chain_named.
Qed.

Lemma wire_log_emits {A} P (m : M A) w :
  emits P m →
  ∃ new,
    requests (m w).2 = requests w ++ new
    ∧ Forall P new
    ∧ wire_log (m w).2 = wire_log w ++ (new ≫= on_wire)
    ∧ Forall (λ r, P r ∨ named_by_server r) (new ≫= on_wire).
Proof.
  intros Hm. destruct (Hm w) as (new & Hreq & Hnew).
  exists new. split; [done |]. split; [done |]. split.
  - unfold wire_log. by rewrite Hreq, bind_app.
  - apply Forall_forall. intros r (a & Hr & Ha)%list_elem_of_bind.
    apply on_wire_named in Hr as [-> | Hr]; [left | by right].
    by eapply Forall_forall in Hnew.
Qed.

Lemma emits_get_tile_ancestors
    depth base_url pano_id face level x y suffix cache_dir :
  emits (ancestor_request base_url pano_id face suffix level x y)
    (get_tile_with_fallback depth base_url pano_id face level x y suffix cache_dir).
Proof.
  revert level x y. induction depth as [| depth IH]; intros level x y.
  { by apply emits_silent. }
  cbn [get_tile_with_fallback]. apply emits_bind.
  { apply emits_fetch_tile. exists level. split; [by left |].
    by rewrite Z.sub_diag, !Z.div_1_r. }
  intros [|].
  { apply emits_bind; [apply emits_image_open |]. intros im. apply emits_ret. }
  apply emits_for_first. intros fl Hfl%elem_of_range_down.
  apply emits_bind.
  - eapply emits_mono; [| apply IH]. intros r. by apply ancestor_request_up.
  - intros [t |]; apply emits_ret.
Qed.

(** The resolver only downloads, and only the requested tile and tiles
    that cover it: every download it asks the session for is a GET for
    [(l, x // 2^(level - l), y // 2^(level - l))] with [l = level] or
    [0 ≤ l < level].  It never probes with HEAD and never asks for a
    neighbouring tile or a finer level.  The session follows redirects, so
    the requests that are sent are these downloads and, after each of them,
    the downloads its redirects lead to: every request sent is a download
    of such a tile or a download of a URL that the server named in a
    redirect. *)
Theorem get_tile_with_fallback_asks_ancestors
    depth base_url pano_id face level x y suffix cache_dir w :
  let w' := (get_tile_with_fallback depth base_url pano_id face level x y suffix
               cache_dir w).2 in
  let asked := ancestor_request base_url pano_id face suffix level x y in
  ∃ calls,
    requests w' = requests w ++ calls
    ∧ Forall asked calls
    ∧ wire_log w' = wire_log w ++ (calls ≫= on_wire)
    ∧ Forall (λ r, (asked r ∨ named_by_server r) ∧ r = GET (url_of r))
        (calls ≫= on_wire).
Proof.
  intros w' asked.
  destruct (wire_log_emits asked
              (get_tile_with_fallback depth base_url pano_id face level x y suffix
                 cache_dir) w) as (calls & Hreq & Hcalls & Hwire & Hsent).
  { apply emits_get_tile_ancestors. }
  exists calls. split; [done |]. split; [done |]. split; [done |].
  eapply Forall_impl; [exact Hsent |].
  intros r [Hr | Hr]; (split; [by auto |]).
  - by destruct Hr as (l & _ & ->).
  - by destruct Hr as (_ & _ & _ & _ & _ & Hr).
Qed.

Lemma cache_grows_refl w : cache_grows w w.
Proof. by repeat split. Qed.

Lemma cache_grows_trans w1 w2 w3 :
  cache_grows w1 w2 → cache_grows w2 w3 → cache_grows w1 w3.
Proof.
  intros (Hf1 & Hd1 & Hr1) (Hf2 & Hd2 & Hr2).
  split; [by etrans | split; by etrans].
Qed.

Lemma steps_ret {A} (a : A) : steps cache_grows (ret a).
Proof. intros w. apply cache_grows_refl. Qed.

Lemma steps_bind {A B} (m : M A) (k : A → M B) :
  steps cache_grows m → (∀ a, steps cache_grows (k a)) → steps cache_grows (bind m k).
Proof.
  intros Hm Hk w. unfold bind. pose proof (Hm w) as Hw.
  destruct (m w) as [[a | e |] w1]; [| done | done].
  eapply cache_grows_trans; [exact Hw | apply Hk].
Qed.

Lemma steps_for_first {A B} (xs : list A) (body : A → M (option B)) :
  (∀ x, steps cache_grows (body x)) → steps cache_grows (for_first xs body).
Proof.
  intros Hbody. induction xs as [| x xs IH]; [by apply steps_ret |].
  cbn [for_first]. apply steps_bind; [apply Hbody |].
  intros [b |]; [by apply steps_ret | apply IH].
Qed.

Lemma cache_grows_sent r w : cache_grows w (sent r w).
Proof. repeat split; [done | done |]. by apply prefix_app_r. Qed.

Lemma fetch_tile_cache_grows url out_path : steps cache_grows (fetch_tile url out_path).
Proof.
  intros w. rewrite fetch_tile_cases.
  destruct (path_exists out_path w) eqn:Hcached; [apply cache_grows_refl |].
  assert (files w !! out_path = None) as Hfresh.
  { unfold path_exists in Hcached. apply orb_false_iff in Hcached as [Hf _].
    apply bool_decide_eq_false in Hf. by apply eq_None_not_Some. }
  destruct (get_answer _ url) as [[code body] |]; [| apply cache_grows_sent].
  destruct (code =? 200); [| apply cache_grows_sent].
  destruct (String.eqb (dirname out_path) ""); [apply cache_grows_sent |].
  destruct (write_fails (dirname out_path)); [apply cache_grows_sent |].
  destruct (write_fails out_path); cbn.
  { split; [done |]. split; [apply union_subseteq_r | by apply prefix_app_r]. }
  destruct (write_breaks out_path) as [leftover |]; cbn.
  - split; [by apply insert_subseteq |].
    split; [apply union_subseteq_r | by apply prefix_app_r].
  - split; [by apply insert_subseteq |].
    split; [apply union_subseteq_r | by apply prefix_app_r].
Qed.

(** The resolver only adds to the cache: whatever the outcome, every file
    that existed keeps its content (a cached tile is never downloaded
    again, overwritten or deleted), every directory stays, and the request
    log is only extended. *)
Theorem get_tile_with_fallback_cache_grows
    depth base_url pano_id face level x y suffix cache_dir :
  steps cache_grows
    (get_tile_with_fallback depth base_url pano_id face level x y suffix cache_dir).
Proof.
  revert level x y. induction depth as [| depth IH]; intros level x y.
  { intros w. apply cache_grows_refl. }
  cbn [get_tile_with_fallback].
  apply steps_bind; [apply fetch_tile_cache_grows |].
  intros [|].
  - apply steps_bind; [| intros im; by apply steps_ret].
    intros w. unfold image_open.
    destruct (files w !! _) as [[im | junk] |]; [apply cache_grows_refl.. |].
    destruct (bool_decide _); apply cache_grows_refl.
  - apply steps_for_first. intros fl.
    apply steps_bind; [apply IH |].
    intros [t |]; by apply steps_ret.
Qed.

(** A decoded tile in the cache is served from the cache: the resolver
    returns it without sending any request and without touching the world,
    whatever the server would answer, and it keeps doing so in every later
    world in which the cache has only grown. *)
Theorem get_tile_with_fallback_cached
    depth base_url pano_id face level x y suffix cache_dir w im w' :
  files w !! tile_path cache_dir level x y = Some (Jpeg im) →
  cache_grows w w' →
  get_tile_with_fallback (S depth) base_url pano_id face level x y suffix cache_dir w'
  = (Val (Some im), w').
Proof.
  intros Hfile (Hfiles & _ & _).
  assert (files w' !! tile_path cache_dir level x y = Some (Jpeg im)) as Hfile'.
  { by eapply lookup_weaken. }
  cbn [get_tile_with_fallback].
  unfold bind at 1, fetch_tile, bind at 1, os_path_exists, path_exists.
  rewrite bool_decide_true by (by rewrite Hfile'). cbn [orb].
  unfold ret at 1, bind, image_open. by rewrite Hfile'.
Qed.

(** ** The cost of a tile that is nowhere *)

Lemma range_down_succ n : 0 ≤ n → range_down (n + 1) = n :: range_down n.
Proof.
  intros Hn. unfold range_down. rewrite seqZ_app by lia.
  rewrite reverse_app. by rewrite (seqZ_cons (0 + n) 1), (seqZ_nil _ (Z.pred 1)) by lia.
Qed.

Lemma fetch_tile_miss url out_path w :
  path_exists out_path w = false →
  get_ok url = false →
  fetch_tile url out_path w = (Val false, sent (GET url) w).
Proof.
  intros Hfresh Hdown. rewrite fetch_tile_cases, Hfresh. unfold get_ok in Hdown.
  destruct (get_answer _ url) as [[code body] |]; [| done]. by rewrite Hdown.
Qed.

(** When no level has the tile (no download succeeds and nothing is
    cached), the resolver gives up with [None] only after [2 ^ level]
    downloads: every level tried by the fallback loop tries all the levels
    below it again, and failures are not remembered.  The file system is
    left as it was. *)
Theorem get_tile_with_fallback_all_missing
    base_url pano_id face level x y suffix cache_dir w :
  (∀ l x' y', get_ok (tile_url base_url pano_id face l x' y' suffix) = false) →
  (∀ l x' y', path_exists (tile_path cache_dir l x' y') w = false) →
  0 ≤ level →
  ∃ w',
    get_tile_with_fallback (depth_for level) base_url pano_id face level x y
      suffix cache_dir w = (Val None, w')
    ∧ files w' = files w ∧ dirs w' = dirs w
    ∧ Z.of_nat (length (requests w')) = Z.of_nat (length (requests w)) + 2 ^ level.
Proof.
  intros Hdown Hfresh Hlevel.
  assert (∀ (n : nat) level depth x y w,
            0 ≤ level < Z.of_nat n → (Z.to_nat level < depth)%nat →
            (∀ l x' y', path_exists (tile_path cache_dir l x' y') w = false) →
            ∃ w',
              get_tile_with_fallback depth base_url pano_id face level x y
                suffix cache_dir w = (Val None, w')
              ∧ files w' = files w ∧ dirs w' = dirs w
              ∧ Z.of_nat (length (requests w'))
                = Z.of_nat (length (requests w)) + 2 ^ level) as Hall.
  { clear level x y w Hfresh Hlevel.
    induction n as [| n IH]; intros level depth x y w Hlevel Hdepth Hfresh; [lia |].
    destruct depth as [| depth]; [lia |]. cbn [get_tile_with_fallback].
    rewrite (bind_val _ _ _ _ _ (fetch_tile_miss _ _ w (Hfresh _ _ _) (Hdown _ _ _))).
    assert (∀ (k : nat) w1,
              Z.of_nat k ≤ level →
              files w1 = files w → dirs w1 = dirs w →
              ∃ w',
                for_first (range_down (Z.of_nat k))
                  (λ fallback_level,
                     let* sub_tile :=
                       get_tile_with_fallback depth base_url pano_id face fallback_level
                         (x `div` 2 ^ (level - fallback_level))
                         (y `div` 2 ^ (level - fallback_level)) suffix cache_dir in
                     match sub_tile with
                     | Some t => ret (Some (rebuild level fallback_level x y t))
                     | None => ret None
                     end) w1 = (Val None, w')
                ∧ files w' = files w ∧ dirs w' = dirs w
                ∧ Z.of_nat (length (requests w'))
                  = Z.of_nat (length (requests w1)) + 2 ^ Z.of_nat k - 1) as Hloop.
    { induction k as [| k IHk]; intros w1 Hk Hf1 Hd1.
      { exists w1. split; [done |]. split; [done |]. split; [done |]. cbn. lia. }
      replace (Z.of_nat (S k)) with (Z.of_nat k + 1) by lia.
      rewrite range_down_succ by lia. cbn [for_first].
      destruct (IH (Z.of_nat k) depth
                  (x `div` 2 ^ (level - Z.of_nat k)) (y `div` 2 ^ (level - Z.of_nat k)) w1)
        as (w2 & Hsub & Hf2 & Hd2 & Hlen2); [lia | lia | |].
      { intros l x' y'. rewrite <- (Hfresh l x' y'). unfold path_exists.
        by rewrite Hf1, Hd1. }
      unfold bind at 1. unfold bind at 1. rewrite Hsub. unfold ret at 1.
      destruct (IHk w2) as (w3 & Hrest & Hf3 & Hd3 & Hlen3); [lia | congruence.. |].
      exists w3. split; [done |]. split; [done |]. split; [done |].
      rewrite Hlen3, Hlen2, Z.pow_add_r by lia. lia. }
    destruct (Hloop (Z.to_nat level) (sent (GET (tile_url base_url pano_id face level x y suffix)) w))
      as (w' & Hrun & Hf & Hd & Hlen); [lia | done | done |].
    rewrite Z2Nat.id in Hrun, Hlen by lia.
    exists w'. split; [done |]. split; [done |]. split; [done |].
    rewrite Hlen. cbn [sent requests]. rewrite length_app. cbn [length]. lia. }
  apply (Hall (S (Z.to_nat level))); [lia | unfold depth_for; lia | done].
Qed.

(** ** Where the pasted tiles land *)

(** The canvas is [(max_x + 1) * TILE_SIZE] wide and
    [(max_y + 1) * TILE_SIZE] high, while tile [(x, y)] goes to column
    [y * TILE_SIZE] and row [x * TILE_SIZE].  So a tile with [y ≤ max_x]
    starts a full tile before the right edge, and a tile with [y > max_x]
    is pasted at or beyond the right edge, outside the canvas; likewise for
    [x] against [max_y] and the bottom edge.  Only on a square grid does
    every tile land inside. *)
Theorem paste_grid_landing base_url pano_id face suffix face_dir level max_x max_y
    w pano w' :
  paste_grid base_url pano_id face suffix face_dir level max_x max_y
    (Blank ((max_x + 1) * TILE_SIZE) ((max_y + 1) * TILE_SIZE)) w = (Val pano, w') →
  let width := (size pano).1 in
  let height := (size pano).2 in
  width = (max_x + 1) * TILE_SIZE
  ∧ height = (max_y + 1) * TILE_SIZE
  ∧ Forall (λ p : image * (Z * Z),
      ∃ x y,
        0 ≤ x ≤ max_x ∧ 0 ≤ y ≤ max_y
        ∧ p.2 = (y * TILE_SIZE, x * TILE_SIZE)
        ∧ (y ≤ max_x → p.2.1 + TILE_SIZE ≤ width)
        ∧ (max_x < y → width ≤ p.2.1)
        ∧ (x ≤ max_y → p.2.2 + TILE_SIZE ≤ height)
        ∧ (max_y < x → height ≤ p.2.2))
      (pastes pano)
  ∧ (max_x = max_y →
     Forall (λ p : image * (Z * Z),
       0 ≤ p.2.1 ∧ p.2.1 + TILE_SIZE ≤ width ∧ 0 ≤ p.2.2 ∧ p.2.2 + TILE_SIZE ≤ height)
       (pastes pano)).
Proof.
  intros Hrun width height.
  apply paste_grid_well_pasted in Hrun as [Hground Hpastes].
  assert (size pano = ((max_x + 1) * TILE_SIZE, (max_y + 1) * TILE_SIZE)) as Hsize.
  { by rewrite size_ground, Hground. }
  subst width height. rewrite Hsize. cbn [fst snd].
  split; [done |]. split; [done |]. split.
  - eapply Forall_impl; [exact Hpastes |].
    intros p (x & y & Hx & Hy & Hoff & _). exists x, y.
    rewrite Hoff. cbn [fst snd]. unfold TILE_SIZE. repeat split; lia.
  - intros Hsquare. eapply Forall_impl; [exact Hpastes |].
    intros p (x & y & Hx & Hy & Hoff & _).
    rewrite Hoff. cbn [fst snd]. unfold TILE_SIZE. lia.
Qed.

(** ** The requests of a run *)

(** Every request that [main] asks the session for, whatever happens
    during the run, is for a level-0 tile of a panorama listed in the data,
    at the base URL and with the version suffix of its location.  The
    session follows the redirects of a download, so every request sent
    during the run is such a request or the download of a URL that the
    server named in a redirect. *)
Theorem main_requests_level0 data w :
  let asked := λ r, ∃ loc pano_id,
                 loc ∈ data ∧ pano_id ∈ panoramas loc
                 ∧ level0_request (baseUrl loc) pano_id
                     (build_version_suffix (version loc)) r in
  ∃ calls,
    requests (main data w).2 = requests w ++ calls
    ∧ Forall asked calls
    ∧ wire_log (main data w).2 = wire_log w ++ (calls ≫= on_wire)
    ∧ Forall (λ r, asked r ∨ named_by_server r) (calls ≫= on_wire).
Proof.
  intros asked. apply wire_log_emits.
  unfold main. apply emits_for_each. intros loc Hloc.
  apply emits_for_each. intros pano_id Hpano.
  eapply emits_mono; [| apply emits_process_pano].
  intros r Hr. by exists loc, pano_id.
Qed.

(** ** Tile names *)

Lemma is_numeral_pretty_N_go x s : is_numeral s = true → is_numeral (pretty_N_go x s) = true.
Proof.
  revert s. induction (N.lt_wf_0 x) as [x _ IH]; intros s Hs.
  assert (x = 0 ∨ 0 < x)%N as [-> | Hpos] by lia; [by rewrite pretty_N_go_0 |].
  rewrite pretty_N_go_step by done. apply IH; [by apply N.div_lt |].
  cbn [is_numeral]. rewrite Hs, andb_true_r.
  unfold pretty_N_char. by repeat case_match.
Qed.

Lemma is_numeral_pretty (z : Z) : is_numeral (pretty z) = true.
Proof.
  assert (∀ p : positive, is_numeral (pretty p) = true) as Hpos.
  { intros p. unfold pretty, pretty_positive, pretty, pretty_N.
    case_decide; [done |]. by apply is_numeral_pretty_N_go. }
  destruct z as [| p | p]; [done | apply Hpos |].
  change (pretty (Z.neg p)) with (String "-" (pretty p)).
  cbn [is_numeral]. by rewrite Hpos.
Qed.

(** A numeral followed by a character that is not a numeral character ends
    at that character. *)
Lemma numeral_split a a' sep r r' :
  is_numeral a = true → is_numeral a' = true → is_numeral_char sep = false →
  a +:+ String sep r = a' +:+ String sep r' → a = a' ∧ r = r'.
Proof.
  intros Ha Ha' Hsep. revert a' Ha'.
  induction a as [| c a IH]; intros [| c' a'] Ha' Heq.
  - by injection Heq as ->.
  - injection Heq as <- _. cbn [is_numeral] in Ha'. by rewrite Hsep in Ha'.
  - injection Heq as -> _. cbn [is_numeral] in Ha. by rewrite Hsep in Ha.
  - injection Heq as -> Heq. cbn [is_numeral] in Ha, Ha'.
    apply andb_true_iff in Ha as [_ Ha]. apply andb_true_iff in Ha' as [_ Ha'].
    destruct (IH Ha a' Ha' Heq) as [-> ->]. done.
Qed.

Lemma tile_name_inj (level x y level' x' y' : Z) tail :
  pretty level +:+ "_" +:+ pretty x +:+ "_" +:+ pretty y +:+ tail
  = pretty level' +:+ "_" +:+ pretty x' +:+ "_" +:+ pretty y' +:+ tail →
  tail ≠ "" → is_numeral_char (default "0"%char (String.get 0 tail)) = false →
  level = level' ∧ x = x' ∧ y = y'.
Proof.
  intros Heq Htail Hsep.
  apply numeral_split in Heq as [Hl Heq]; [| apply is_numeral_pretty.. | done].
  apply numeral_split in Heq as [Hx Heq]; [| apply is_numeral_pretty.. | done].
  destruct tail as [| sep tail]; [done |]. cbn in Hsep.
  apply numeral_split in Heq as [Hy _]; [| apply is_numeral_pretty.. | done].
  by apply (inj pretty) in Hl, Hx, Hy.
Qed.

Lemma pretty_N_go_nonempty x s : s ≠ "" → pretty_N_go x s ≠ "".
Proof.
  revert s. induction (N.lt_wf_0 x) as [x _ IH]; intros s Hs.
  assert (x = 0 ∨ 0 < x)%N as [-> | Hpos] by lia; [by rewrite pretty_N_go_0 |].
  rewrite pretty_N_go_step by done. apply IH; [by apply N.div_lt | done].
Qed.

Lemma pretty_nonempty (z : Z) : pretty z ≠ "".
Proof.
  destruct z as [| p | p]; [done | | done].
  unfold pretty, pretty_Z, pretty, pretty_positive, pretty, pretty_N.
  case_decide; [done |]. rewrite pretty_N_go_step by lia.
  by apply pretty_N_go_nonempty.
Qed.

Lemma startswith_slash_numeral (z : Z) tail :
  startswith (pretty z +:+ tail) "/" = false.
Proof.
  pose proof (is_numeral_pretty z) as Hnum. pose proof (pretty_nonempty z) as Hne.
  destruct (pretty z) as [| c rest]; [done |].
  change (String c rest +:+ tail) with (String c (rest +:+ tail)).
  unfold startswith. cbn [String.prefix].
  destruct (Ascii.ascii_dec "/" c) as [<- | _]; [done | done].
Qed.

(** Tile names are unambiguous: two tiles have the same cache file below
    one cache directory, or the same URL for one face, exactly when they
    have the same level, column and row. *)
Theorem tile_path_url_inj base_url pano_id face suffix cache_dir level x y level' x' y' :
  (tile_path cache_dir level x y = tile_path cache_dir level' x' y'
   ↔ (level, x, y) = (level', x', y'))
  ∧ (tile_url base_url pano_id face level x y suffix
     = tile_url base_url pano_id face level' x' y' suffix
     ↔ (level, x, y) = (level', x', y')).
Proof.
  split; (split; [| by intros [= -> -> ->]]).
  - unfold tile_path, path_join. rewrite !startswith_slash_numeral.
    intros Heq.
    assert (pretty level +:+ "_" +:+ pretty x +:+ "_" +:+ pretty y +:+ ".jpg"
            = pretty level' +:+ "_" +:+ pretty x' +:+ "_" +:+ pretty y' +:+ ".jpg")
      as Hname.
    { destruct (String.eqb cache_dir "" || endswith cache_dir "/").
      - by apply (inj (String.app cache_dir)) in Heq.
      - apply (inj (String.app cache_dir)) in Heq.
        by apply (inj (String.app "/")) in Heq. }
    apply tile_name_inj in Hname as (-> & -> & ->); done.
  - unfold tile_url. intros Heq.
    apply (inj (String.app base_url)) in Heq. apply (inj (String.app pano_id)) in Heq.
    apply (inj (String.app "/")) in Heq. apply (inj (String.app face)) in Heq.
    apply (inj (String.app "/")) in Heq.
    apply numeral_split in Heq as [Hl Heq]; [| apply is_numeral_pretty.. | done].
    apply numeral_split in Heq as [Hx Heq]; [| apply is_numeral_pretty.. | done].
    change (".jpg" +:+ suffix) with (String "." ("jpg" +:+ suffix)) in Heq.
    apply numeral_split in Heq as [Hy _]; [| apply is_numeral_pretty.. | done].
    apply (inj pretty) in Hl, Hx, Hy. by subst.
Qed.

(** ** Loading the locations *)

Lemma load_locations_entries container_repr idx items entries :
  load_locations container_repr idx items = inr entries →
  length entries = length items
  ∧ ∀ i e, entries !! i = Some e →
      ∃ members, items !! i = Some (JObj members)
                 ∧ load_location container_repr (idx + i) (JObj members) = inr e.
Proof.
  revert idx entries. induction items as [| loc items IH]; intros idx entries Hload.
  { injection Hload as <-. split; [done |]. intros i e Hi. by destruct i. }
  cbn [load_locations] in Hload.
  destruct (load_location container_repr idx loc) as [err | item] eqn:Hloc; [done |].
  destruct (load_locations container_repr (S idx) items) as [err | rest] eqn:Hrest; [done |].
  injection Hload as <-. destruct (IH _ _ Hrest) as [Hlen Hitems].
  split; [cbn; by rewrite Hlen |].
  intros [| i] e Hi.
  - injection Hi as <-. destruct loc; try done. eexists. split; [done |].
    by rewrite Nat.add_0_r.
  - destruct (Hitems i e Hi) as (members & Hitem & Hentry).
    exists members. split; [done |]. by replace (idx + S i)%nat with (S idx + i)%nat by lia.
Qed.

Lemma load_locations_first_bad container_repr idx objects bad rest :
  Forall (λ v, is_object v = true) objects → is_object bad = false →
  load_locations container_repr idx (objects ++ bad :: rest) = inl (AttributeError bad).
Proof.
  intros Hobjects Hbad. revert idx.
  induction Hobjects as [| v objects Hv _ IH]; intros idx.
  - cbn. by destruct bad.
  - cbn [app load_locations]. destruct v; try done. cbn. by rewrite IH.
Qed.

(** What [load_data] returns for a list of locations: one entry per item,
    in order; every base URL ends with a slash (an entry without
    [baseUrl] and [baseurl] gets the base URL "/"); every name is truthy,
    the name of the item or else ["loc"] followed by the index of the
    item; missing panoramas become the empty list and a missing version
    the empty string. *)
Theorem load_data_entries container_repr items entries :
  load_data container_repr (JArr items) = inr entries →
  length entries = length items
  ∧ ∀ i e, entries !! i = Some e →
      ∃ members,
        items !! i = Some (JObj members)
        ∧ endswith (entry_baseUrl e) "/" = true
        ∧ (truthy (dict_get members "baseUrl") = false →
           truthy (dict_get members "baseurl") = false → entry_baseUrl e = "/")
        ∧ truthy (entry_name e) = true
        ∧ entry_name e
          = (if truthy (dict_get members "name") then dict_get members "name"
             else JStr ("loc" +:+ pretty (Z.of_nat i)))
        ∧ entry_panoramas e
          = (if truthy (dict_get members "panoramas") then dict_get members "panoramas"
             else JArr [])
        ∧ entry_version e
          = (if truthy (dict_get members "version") then dict_get members "version"
             else JStr "").
Proof.
  intros Hload. cbn in Hload.
  apply load_locations_entries in Hload as [Hlen Hitems].
  split; [done |]. intros i e Hi.
  destruct (Hitems i e Hi) as (members & Hitem & Hentry).
  exists members. split; [done |]. cbn in Hentry. injection Hentry as <-.
  cbn [entry_baseUrl entry_name entry_panoramas entry_version]. unfold py_or.
  split; [apply ensure_slash_ends |]. split; [| split; [| by repeat split]].
  - by intros -> ->.
  - destruct (truthy (dict_get members "name")) eqn:Hname; [done |].
    cbn. by destruct (pretty (Z.of_nat i)).
Qed.

(** The shapes [load_data] accepts.  A document [{"locations": [...]}]
    loads as the list itself does, and a dict without that key loads as the
    empty list.  Any other document (a string, a number, null) raises
    [AttributeError], as does a list with an item that is not an object: the
    error is that of the first such item, and nothing is returned for the
    items before it. *)
Theorem load_data_shapes container_repr :
  (∀ before items after,
     Forall (λ kv : string * json, kv.1 ≠ "locations") before →
     load_data container_repr (JObj (before ++ ("locations", JArr items) :: after))
     = load_data container_repr (JArr items))
  ∧ (∀ members,
       Forall (λ kv : string * json, kv.1 ≠ "locations") members →
       load_data container_repr (JObj members) = inr [])
  ∧ (∀ raw, match raw with JArr _ | JObj _ => False | _ => True end →
       load_data container_repr raw = inl (AttributeError raw))
  ∧ (∀ objects bad rest,
       Forall (λ v, is_object v = true) objects → is_object bad = false →
       load_data container_repr (JArr (objects ++ bad :: rest))
       = inl (AttributeError bad)).
Proof.
  split; [| split; [| split]].
  - intros before items after Hbefore. unfold load_data.
    assert (list_find (λ kv : string * json, kv.1 = "locations")
              (before ++ ("locations", JArr items) :: after)
            = Some (length before, ("locations", JArr items))) as ->; [| done].
    apply list_find_Some. split; [| split; [done |]].
    + by rewrite lookup_app_r, Nat.sub_diag by lia.
    + intros j kv Hj Hlt. rewrite lookup_app_l in Hj by done.
      by eapply Forall_lookup_1 in Hbefore.
  - intros members Hmembers. unfold load_data.
    assert (list_find (λ kv : string * json, kv.1 = "locations") members = None) as ->;
      [| done].
    by apply list_find_None.
  - intros raw Hraw. by destruct raw.
  - intros objects bad rest Hobjects Hbad. cbn.
    by apply load_locations_first_bad.
Qed.

(** ** Counting images *)

Lemma lower_app a b : lower (a +:+ b) = lower a +:+ lower b.
Proof.
  induction a as [| c a IH]; [done |].
  change (lower (String c (a +:+ b)) = String (lower_char c) (lower a +:+ lower b)).
  cbn [lower]. by rewrite IH.
Qed.

Lemma length_lower s : String.length (lower s) = String.length s.
Proof. induction s as [| c s IH]; [done |]. cbn. by rewrite IH. Qed.

Lemma length_string_app a b :
  String.length (a +:+ b) = (String.length a + String.length b)%nat.
Proof.
  induction a as [| c a IH]; [done |].
  change (S (String.length (a +:+ b)) = S (String.length a + String.length b)).
  by rewrite IH.
Qed.

Lemma string_app_assoc a b c : a +:+ (b +:+ c) = (a +:+ b) +:+ c.
Proof.
  induction a as [| x a IH]; [done |].
  change (String x (a +:+ (b +:+ c)) = String x ((a +:+ b) +:+ c)). by rewrite IH.
Qed.

Lemma substring_all s : String.substring 0 (String.length s) s = s.
Proof. induction s as [| c s IH]; [done |]. cbn. by rewrite IH. Qed.

Lemma substring_suffix a b :
  String.substring (String.length a) (String.length b) (a +:+ b) = b.
Proof. induction a as [| c a IH]; [apply substring_all | exact IH]. Qed.

Lemma endswith_app a b c :
  String.length c = String.length b → endswith (a +:+ b) c = String.eqb b c.
Proof.
  intros Hlen. unfold endswith. rewrite length_string_app, Hlen.
  replace (String.length b <=? String.length a + String.length b)%nat with true
    by (symmetry; apply Nat.leb_le; lia).
  replace (String.length a + String.length b - String.length b)%nat
    with (String.length a) by lia.
  by rewrite substring_suffix.
Qed.

Lemma lower_char_idemp c : lower_char (lower_char c) = lower_char c.
Proof. destruct c as [[] [] [] [] [] [] [] []]; reflexivity. Qed.

Lemma lower_idemp s : lower (lower s) = lower s.
Proof. induction s as [| c s IH]; [done |]. cbn. by rewrite lower_char_idemp, IH. Qed.

(** Which names count: the match on the extension ignores letter case, so
    any name whose last four characters read [.jpg] in some mix of cases is
    counted; a name of fewer than four characters and a name in [.jpeg]
    are not. *)
Theorem is_jpg_extension :
  (∀ stem ext, lower ext = ".jpg" → is_jpg (stem +:+ ext) = true)
  ∧ (∀ stem, is_jpg (stem +:+ ".JPG") = true ∧ is_jpg (stem +:+ ".Jpg") = true)
  ∧ (∀ f, is_jpg (lower f) = is_jpg f)
  ∧ (∀ f, (String.length f < 4)%nat → is_jpg f = false)
  ∧ (∀ stem, is_jpg (stem +:+ ".jpeg") = false ∧ is_jpg (stem +:+ ".png") = false).
Proof.
  assert (∀ stem ext, lower ext = ".jpg" → is_jpg (stem +:+ ext) = true) as Hext.
  { intros stem ext Hext. unfold is_jpg. rewrite lower_app, Hext.
    by rewrite endswith_app. }
  split; [done |]. split; [by split; apply Hext |]. split; [| split].
  - intros f. unfold is_jpg. by rewrite lower_idemp.
  - intros f Hlen. unfold is_jpg, endswith. rewrite length_lower.
    cbn [String.length]. replace (4 <=? String.length f)%nat with false; [done |].
    symmetry. apply Nat.leb_gt. lia.
  - intros stem. unfold is_jpg. rewrite !lower_app. split.
    + change (lower ".jpeg") with ("." +:+ "jpeg"). rewrite string_app_assoc.
      by rewrite endswith_app.
    + by rewrite endswith_app.
Qed.

Lemma count_walk_app l1 l2 count :
  count_walk (l1 ++ l2) count = count_walk l2 (count_walk l1 count).
Proof. unfold count_walk. apply fold_left_app. Qed.

Lemma count_walk_from l count : count_walk l count = (count + count_walk l 0)%nat.
Proof.
  revert count. induction l as [| file_names l IH]; intros count; [cbn; lia |].
  unfold count_walk in *. cbn [fold_left]. rewrite IH, (IH (0 + _)%nat). lia.
Qed.

(** What is counted: the files of the directory itself whose name matches,
    plus the count of every subdirectory that the walk enters.  The names
    of directories are never counted, whatever their extension, and a
    subdirectory that is not entered contributes nothing.  A path that is
    not a directory raises [ValueError]. *)
Theorem count_jpg_files_recursive_sum isdir path :
  match isdir path with
  | None => count_jpg_files_recursive isdir path = inl (ValueError path)
  | Some (DirTree file_names subdirs) =>
      count_jpg_files_recursive isdir path
      = inr (length (filter (λ f, is_jpg f = true) file_names)
             + sum_list ((λ entry : string * option dir_tree,
                            match entry.2 with
                            | Some sub => count_walk (walk sub) 0
                            | None => 0%nat
                            end) <$> subdirs))%nat
  end.
Proof.
  unfold count_jpg_files_recursive.
  destruct (isdir path) as [[file_names subdirs] |]; [| done]. f_equal.
  cbn [walk]. unfold count_walk at 1. cbn [fold_left]. fold (count_walk).
  change (fold_left _ ?l ?c) with (count_walk l c).
  rewrite count_walk_from. cbn [Nat.add]. f_equal.
  induction subdirs as [| [dir_name [sub |]] subdirs IH]; [done | |].
  - rewrite count_walk_app, count_walk_from. cbn [fmap list_fmap sum_list snd].
    cbn in IH. rewrite IH. done.
  - cbn [fmap list_fmap sum_list snd]. cbn in IH. by rewrite IH.
Qed.

End Crawler.

(** * Worked runs *)

(** ** C1 *)

(** C1, as the specification words it, fails.  The run over p1 (front face
    only) and p2 (complete) stops at p1: the result of [main] is the
    [FileNotFoundError] of p1's back face.  No request for p2 is ever sent
    and its panorama is not written, although p2 processed alone
    succeeds. *)
Lemma main_stops_at_failed_panorama :
  let run := main (serve p1_partial_p2_full) never unbroken never [loc1] world0 in
  let alone := process_pano (serve p1_partial_p2_full) never unbroken never loc1 "p2" world0 in
  (fst run = Exc (FileNotFoundError "panoramas/loc/p1/b.jpg")
   ∧ (HEAD "http://h/p2/f/0/0_0.jpg" ∉ requests (snd run))
   ∧ files (snd run) !! "panoramas/loc/p2.jpg" = None
   ∧ fst alone = Val tt
   ∧ is_Some (files (snd alone) !! "panoramas/loc/p2.jpg")).
Proof.
  split; [by vm_compute |]. split; [| split; [| split]].
  - apply (bool_decide_unpack _). by vm_compute.
  - by vm_compute.
  - by vm_compute.
  - apply (bool_decide_unpack _). by vm_compute.
Qed.

Lemma missing_face_aborts_run_p1 :
  main (serve p1_partial_p2_full) never unbroken never [loc1] world0
  = (Exc (FileNotFoundError "panoramas/loc/p1/b.jpg"),
     (assemble_faces (serve p1_partial_p2_full) never unbroken loc1 "p1" world0).2).
Proof.
  refine (proj2 (missing_face_aborts_run (serve p1_partial_p2_full) never unbroken never
            [] loc1 [] "p1" ["p2"] [] world0 world0 world0
            (assemble_faces (serve p1_partial_p2_full) never unbroken loc1 "p1" world0).2
            1024 ["f"] "b" ["l"; "r"; "u"; "d"] _ _ _ _ _ _ _ _)).
  - reflexivity.
  - reflexivity.
  - reflexivity.
  - by vm_compute.
  - lia.
  - reflexivity.
  - intros g Hg. apply list_elem_of_singleton in Hg as ->.
    exists (Paste (Paste (Blank 1024 512) (Raster 512 512 "p1f00") (0, 0))
              (Raster 512 512 "p1f10") (0, 512)).
    by vm_compute.
  - by vm_compute.
Defined.

(** ** C2 *)

(** C2, as the specification words it, fails.  A level-0 tile served as a
    256-pixel image is returned as it is: the resolver's result has edge
    256, not [TILE_SIZE]. *)
Lemma direct_tile_keeps_its_size :
  get_tile_with_fallback (serve small_tile) never unbroken (depth_for 0) "http://h/" "p1" "f"
    0 0 0 "" "temp_tiles/p1/f" world0
  = (Val (Some (Raster 256 256 "small")),
     mkWorld {["temp_tiles/p1/f/0_0_0.jpg" := Jpeg (Raster 256 256 "small")]}
       {["temp_tiles"; "temp_tiles/p1"; "temp_tiles/p1/f"]}
       [GET "http://h/p1/f/0/0_0.jpg"])
  ∧ size (Raster 256 256 "small") ≠ (TILE_SIZE, TILE_SIZE).
Proof. split; by vm_compute. Qed.

Lemma get_tile_with_fallback_geometry_run :
  ∃ parent,
    (get_tile_with_fallback (serve only_parent) never unbroken 2 "http://h/" "p1" "f"
       1 1 1 "" "temp_tiles/p1/f" world0).1
    = Val (Some (Resize TILE_SIZE TILE_SIZE (Crop (256, 256, 512, 512) parent))).
Proof.
  destruct (get_tile_with_fallback_geometry (serve only_parent) never unbroken 1%nat
              "http://h/" "p1" "f" 1 1 1 "" "temp_tiles/p1/f" world0
              (Resize 512 512 (Crop (256, 256, 512, 512) (Raster 512 512 "parent")))
              (get_tile_with_fallback (serve only_parent) never unbroken 2 "http://h/" "p1" "f"
                 1 1 1 "" "temp_tiles/p1/f" world0).2)
    as [[Hfetch _] | (w1 & higher & fl & lower & wi & parent & _)].
  - by vm_compute.
  - by vm_compute in Hfetch.
  - exists (Raster 512 512 "parent"). by vm_compute.
Defined.

(** ** C3 *)

(** C3, as the specification words it, fails.  With tile (1, 1, 1) missing
    and tile (0, 0, 0) present, the crop box is (256, 256, 512, 512); it is
    not the box (512, 512, 1024, 1024), which lies outside the 512-pixel
    parent. *)
Lemma scenario_B_crop_box :
  (get_tile_with_fallback (serve only_parent) never unbroken (depth_for 1) "http://h/" "p1" "f"
     1 1 1 "" "temp_tiles/p1/f" world0).1
  = Val (Some (Resize 512 512 (Crop (256, 256, 512, 512) (Raster 512 512 "parent"))))
  ∧ (get_tile_with_fallback (serve only_parent) never unbroken (depth_for 1) "http://h/" "p1" "f"
       1 1 1 "" "temp_tiles/p1/f" world0).1
    ≠ Val (Some (Resize 512 512 (Crop (512, 512, 1024, 1024) (Raster 512 512 "parent")))).
Proof. split; by vm_compute. Qed.

Lemma get_tile_with_fallback_scenario_B_run :
  get_tile_with_fallback (serve only_parent) never unbroken (depth_for 1) "http://h/" "p1" "f"
    1 1 1 "" "temp_tiles/p1/f" world0
  = (Val (Some (Resize 512 512 (Crop (256, 256, 512, 512) (Raster 512 512 "parent")))),
     mkWorld {["temp_tiles/p1/f/0_0_0.jpg" := tile "parent"]}
       {["temp_tiles"; "temp_tiles/p1"; "temp_tiles/p1/f"]}
       [GET "http://h/p1/f/1/1_1.jpg"; GET "http://h/p1/f/0/0_0.jpg"]).
Proof.
  refine (proj2 (get_tile_with_fallback_scenario_B (serve only_parent) never unbroken
            "http://h/" "p1" "f" "" "temp_tiles/p1/f" world0
            (mkWorld ∅ ∅ [GET "http://h/p1/f/1/1_1.jpg"]) _ _ _ _ _)).
  - by vm_compute.
  - by vm_compute.
  - by vm_compute.
Defined.

(** ** C4 *)

(** C4, as the specification words it, fails: no purge without a face, and
    no purge when the projection raises.  With
    no tile on the server, the tile that an earlier run left under the temp
    root and the face directory just created are still there after
    [process_pano]; with a front face only, the projection raises and the
    cached tile and the face image stay on disk. *)
Lemma cleanup_skipped :
  let no_face := process_pano (serve []) never unbroken never loc1 "p1" stale_world in
  let no_projection := process_pano (serve only_f) never unbroken never loc1 "p1" world0 in
  (fst no_face = Val tt
   ∧ files (snd no_face) !! "temp_tiles/p0/f/0_0_0.jpg" = Some (tile "old")
   ∧ "panoramas/loc/p1" ∈ dirs (snd no_face)
   ∧ fst no_projection = Exc (FileNotFoundError "panoramas/loc/p1/b.jpg")
   ∧ files (snd no_projection) !! "temp_tiles/p1/f/0_0_0.jpg" = Some (tile "p1f00")
   ∧ is_Some (files (snd no_projection) !! "panoramas/loc/p1/f.jpg")).
Proof.
  split; [by vm_compute |]. split; [by vm_compute |]. split; [| split; [| split]].
  - apply (bool_decide_unpack _). by vm_compute.
  - by vm_compute.
  - by vm_compute.
  - apply (bool_decide_unpack _). by vm_compute.
Qed.

Lemma process_pano_cleanup_run :
  ∃ w',
    process_pano (serve (six_faces "p2")) never unbroken never loc1 "p2" world0 = (Val tt, w')
    ∧ files w' !! "temp_tiles/p2/f/0_0_0.jpg" = None
    ∧ "panoramas/loc/p2" ∉ dirs w'.
Proof.
  pose proof (process_pano_cleanup (serve (six_faces "p2")) never unbroken never loc1 "p2"
                world0 (Some 512)
                (assemble_faces (serve (six_faces "p2")) never unbroken loc1 "p2" world0).2) as H.
  cbv zeta in H.
  change (512 =? 0) with false in H. cbv iota in H.
  destruct (merge_to_equirect never unbroken _ _ 512 _) as [[[] | e |] w2] eqn:Hmerge;
    [| by vm_compute in Hmerge | by vm_compute in Hmerge].
  destruct H as (w' & Hrun & _ & _ & _ & Hgone); [by vm_compute |].
  exists w'. split; [done |]. split.
  - by apply Hgone.
  - apply (Hgone "panoramas/loc/p2"); done.
Defined.

(** ** C5 *)

(** C5, as the specification words it, fails.  Tile (1, 1, 1) arrives with
    status 200 and a body that is no image,
    while its parent (0, 0, 0) is available: the resolver raises instead of
    falling back, and the parent is never asked for. *)
Lemma junk_tile_raises :
  get_tile_with_fallback (serve junk_child) never unbroken (depth_for 1) "http://h/" "p1" "f"
    1 1 1 "" "temp_tiles/p1/f" world0
  = (Exc (UnidentifiedImageError "temp_tiles/p1/f/1_1_1.jpg"),
     mkWorld {["temp_tiles/p1/f/1_1_1.jpg" := Junk "<html>busy</html>"]}
       {["temp_tiles"; "temp_tiles/p1"; "temp_tiles/p1/f"]}
       [GET "http://h/p1/f/1/1_1.jpg"])
  ∧ serve junk_child (GET "http://h/p1/f/0/0_0.jpg") = Status 200 (tile "parent").
Proof. split; by vm_compute. Qed.

Lemma get_tile_with_fallback_decode_run :
  get_tile_with_fallback (serve junk_child) never unbroken 2 "http://h/" "p1" "f"
    1 1 1 "" "temp_tiles/p1/f" world0
  = (Exc (UnidentifiedImageError "temp_tiles/p1/f/1_1_1.jpg"),
     mkWorld {["temp_tiles/p1/f/1_1_1.jpg" := Junk "<html>busy</html>"]}
       {["temp_tiles"; "temp_tiles/p1"; "temp_tiles/p1/f"]}
       [GET "http://h/p1/f/1/1_1.jpg"]).
Proof.
  refine (get_tile_with_fallback_decode (serve junk_child) never unbroken 1 "http://h/" "p1" "f"
            1 1 1 "" "temp_tiles/p1/f" world0
            (mkWorld {["temp_tiles/p1/f/1_1_1.jpg" := Junk "<html>busy</html>"]}
               {["temp_tiles"; "temp_tiles/p1"; "temp_tiles/p1/f"]}
               [GET "http://h/p1/f/1/1_1.jpg"]) _).
  by vm_compute.
Defined.

(** ** C8 *)

Lemma download_and_merge_face_composite_run :
  ∃ pano,
    files (download_and_merge_face (serve only_f) never unbroken "http://h/" "p1" "f" ""
             "panoramas/loc/p1" 0 world0).2 !! "panoramas/loc/p1/f.jpg"
    = Some (Jpeg pano)
    ∧ size pano = (1024, 512)
    ∧ pastes pano = [(Raster 512 512 "p1f00", (0, 0)); (Raster 512 512 "p1f10", (0, 512))].
Proof.
  pose proof (download_and_merge_face_composite (serve only_f) never unbroken
                "http://h/" "p1" "f" "" "panoramas/loc/p1" 0 world0
                (mkWorld ∅ {["panoramas"; "panoramas/loc"; "panoramas/loc/p1"]} [])
                1 0
                (detect_max_grid (serve only_f) "http://h/" "p1" "f" "" 0 10
                   (mkWorld ∅ {["panoramas"; "panoramas/loc"; "panoramas/loc/p1"]} [])).2)
    as Hthm.
  destruct Hthm as (_ & _ & _ & Hface & _).
  - by vm_compute.
  - by vm_compute.
  - lia.
  - lia.
  - destruct (Hface (Some "panoramas/loc/p1/f.jpg")
                (download_and_merge_face (serve only_f) never unbroken "http://h/" "p1" "f" ""
                   "panoramas/loc/p1" 0 world0).2)
      as (_ & tiles & w2 & pano & Hres & _ & Hfile & Hsize & _ & Hpastes & _);
      [by vm_compute |].
    exists pano. split; [exact Hfile |]. split; [exact Hsize |].
    rewrite Hpastes. vm_compute in Hres. injection Hres as <- _. reflexivity.
Defined.

(** ** C9 *)

(** C9, as the specification words it, fails.  Two calls for the same
    destination against a server that answers 404:
    nothing is cached by the first call, so each call sends its own GET and
    the two calls together send two requests, not at most one. *)
Lemma fetch_tile_twice_two_requests :
  let first := fetch_tile (serve []) never unbroken "http://h/p1/f/0/0_0.jpg"
                 "temp_tiles/p1/f/0_0_0.jpg" world0 in
  let second := fetch_tile (serve []) never unbroken "http://h/p1/f/0/0_0.jpg"
                  "temp_tiles/p1/f/0_0_0.jpg" (snd first) in
  (fst first = Val false
   ∧ fst second = Val false
   ∧ requests (snd second)
     = [GET "http://h/p1/f/0/0_0.jpg"; GET "http://h/p1/f/0/0_0.jpg"]
   ∧ ¬ (length (requests (snd second)) ≤ 1)%nat).
Proof.
  split; [by vm_compute |]. split; [by vm_compute |]. split; [by vm_compute |].
  vm_compute. lia.
Qed.

(** ** C10 *)

Lemma get_tile_with_fallback_terminates_run :
  (get_tile_with_fallback (serve only_parent) never unbroken 3 "http://h/" "p1" "f" 2 3 1 ""
     "temp_tiles/p1/f" world0).1 ≠ Overflow
  ∧ get_tile_with_fallback (serve only_parent) never unbroken 3 "http://h/" "p1" "f" 2 3 1 ""
      "temp_tiles/p1/f" world0
    = get_tile_with_fallback (serve only_parent) never unbroken (depth_for 2) "http://h/" "p1" "f"
        2 3 1 "" "temp_tiles/p1/f" world0.
Proof.
  refine (proj2 (proj2 (get_tile_with_fallback_terminates (serve only_parent) never unbroken 3
            "http://h/" "p1" "f" 2 3 1 "" "temp_tiles/p1/f" world0 _ _))).
  - lia.
  - simpl. lia.
Defined.

(** ** Further runs *)


(** A front face twice as wide as high: [c2e] rejects the cube, the
    projection raises and saves nothing. *)
Lemma merge_to_equirect_rejects_oblong :
  merge_to_equirect never unbroken "panoramas/loc/p1" "panoramas/loc/p1.jpg" 1024
    oblong_front
  = (Exc CubeError, oblong_front).
Proof. by vm_compute. Qed.

(** A download that is redirected: the fetcher succeeds with what the
    mirror holds; the log has the one call, and two requests went out, the
    second to the URL that the server named. *)
Lemma fetch_tile_follows_redirect :
  let run := fetch_tile moved_tile never unbroken "http://h/p1/f/0/0_0.jpg"
               "temp_tiles/p1/f/0_0_0.jpg" world0 in
  fst run = Val true
  ∧ files (snd run) !! "temp_tiles/p1/f/0_0_0.jpg" = Some (tile "mirror")
  ∧ requests (snd run) = [GET "http://h/p1/f/0/0_0.jpg"]
  ∧ wire_log moved_tile (snd run)
    = [GET "http://h/p1/f/0/0_0.jpg"; GET "http://mirror/t.jpg"].
Proof. repeat split; by vm_compute. Qed.

(** A write that breaks after the file was opened: the fetcher reports
    failure, the truncated file stays, and the next call takes it for a
    cache hit without asking the server again. *)
Lemma fetch_tile_broken_write_is_cached :
  let fetch := fetch_tile (serve only_f) never (breaks_at "temp_tiles/p1/f/0_0_0.jpg")
                 "http://h/p1/f/0/0_0.jpg" "temp_tiles/p1/f/0_0_0.jpg" in
  let first := fetch world0 in
  let second := fetch (snd first) in
  fst first = Val false
  ∧ files (snd first) !! "temp_tiles/p1/f/0_0_0.jpg" = Some (Junk "trunc")
  ∧ fst second = Val true
  ∧ snd second = snd first
  ∧ requests (snd second) = [GET "http://h/p1/f/0/0_0.jpg"].
Proof. repeat split; by vm_compute. Qed.

Lemma download_and_merge_face_absent_run :
  download_and_merge_face (serve only_f) never unbroken "http://h/" "p1" "u" ""
    "panoramas/loc/p1" 0 world0
  = (Val None,
     mkWorld ∅ {["panoramas"; "panoramas/loc"; "panoramas/loc/p1"]}
       [HEAD "http://h/p1/u/0/0_0.jpg"; HEAD "http://h/p1/u/0/0_0.jpg"]).
Proof.
  refine (proj1 (download_and_merge_face_absent (serve only_f) never unbroken "http://h/" "p1"
                   "u" "" "panoramas/loc/p1" 0 world0
                   (mkWorld ∅ {["panoramas"; "panoramas/loc"; "panoramas/loc/p1"]} []) _)
            _).
  - by vm_compute.
  - by vm_compute.
Defined.

Lemma process_pano_absent_run :
  ∃ w',
    process_pano (serve only_f) never unbroken never loc1 "p2" world0 = (Val tt, w')
    ∧ files w' = ∅
    ∧ length (requests w') = 12%nat.
Proof.
  destruct (process_pano_absent (serve only_f) never unbroken never loc1 "p2" world0)
    as (w' & Hrun & Hfiles & _ & _ & _ & Hlen).
  - intros face Hface. unfold FACES in Hface.
    repeat (apply elem_of_cons in Hface as [-> | Hface]; [by vm_compute |]).
    by apply elem_of_nil in Hface.
  - reflexivity.
  - exists w'. split; [exact Hrun |]. split; [exact Hfiles | exact Hlen].
Defined.

Lemma get_tile_with_fallback_cached_run :
  get_tile_with_fallback (serve []) never unbroken 1 "http://h/" "p1" "f" 0 0 0 ""
    "temp_tiles/p1/f"
    (mkWorld {["temp_tiles/p1/f/0_0_0.jpg" := tile "p1f00"]} ∅ [GET "http://h/elsewhere"])
  = (Val (Some (Raster 512 512 "p1f00")),
     mkWorld {["temp_tiles/p1/f/0_0_0.jpg" := tile "p1f00"]} ∅ [GET "http://h/elsewhere"]).
Proof.
  refine (get_tile_with_fallback_cached (serve []) never unbroken 0 "http://h/" "p1" "f" 0 0 0 ""
            "temp_tiles/p1/f"
            (mkWorld {["temp_tiles/p1/f/0_0_0.jpg" := tile "p1f00"]} ∅ [])
            (Raster 512 512 "p1f00") _ _ _).
  - by vm_compute.
  - split; [done |]. split; [done |]. by apply prefix_nil.
Defined.

Lemma get_tile_with_fallback_all_missing_run :
  ∃ w',
    get_tile_with_fallback (serve []) never unbroken (depth_for 3) "http://h/" "p1" "f" 3 5 2 ""
      "temp_tiles/p1/f" world0 = (Val None, w')
    ∧ Z.of_nat (length (requests w')) = 8.
Proof.
  destruct (get_tile_with_fallback_all_missing (serve []) never unbroken "http://h/" "p1" "f"
              3 5 2 "" "temp_tiles/p1/f" world0)
    as (w' & Hrun & _ & _ & Hlen).
  - reflexivity.
  - intros l x' y'. unfold path_exists, world0. cbn [files dirs].
    rewrite lookup_empty.
    rewrite bool_decide_false by (by intros [? ?]).
    rewrite bool_decide_false by (apply not_elem_of_empty). done.
  - lia.
  - exists w'. split; [exact Hrun |]. exact Hlen.
Defined.

Lemma paste_grid_landing_run :
  ∃ pano,
    (paste_grid (serve tall_f) never unbroken "http://h/" "p1" "f" "" "temp_tiles/p1/f" 0 0 1
       (Blank 512 1024) world0).1 = Val pano
    ∧ size pano = (512, 1024)
    ∧ pastes pano = [(Raster 512 512 "p1f00", (0, 0)); (Raster 512 512 "p1f01", (512, 0))].
Proof.
  exists (Paste (Paste (Blank 512 1024) (Raster 512 512 "p1f00") (0, 0))
            (Raster 512 512 "p1f01") (512, 0)).
  split; [by vm_compute |].
  destruct (paste_grid_landing (serve tall_f) never unbroken "http://h/" "p1" "f" ""
              "temp_tiles/p1/f" 0 0 1 world0
              (Paste (Paste (Blank 512 1024) (Raster 512 512 "p1f00") (0, 0))
                 (Raster 512 512 "p1f01") (512, 0))
              (paste_grid (serve tall_f) never unbroken "http://h/" "p1" "f" "" "temp_tiles/p1/f"
                 0 0 1 (Blank 512 1024) world0).2)
    as (Hwidth & Hheight & _).
  - by vm_compute.
  - split; [| reflexivity]. cbv zeta in Hwidth, Hheight.
    destruct (size _) as [width height]. cbn [fst snd] in Hwidth, Hheight.
    by rewrite Hwidth, Hheight.
Defined.

Lemma load_data_entries_run :
  ∃ entries,
    load_data (λ _, "") two_locations = inr entries
    ∧ entry_baseUrl <$> entries = ["http://h/"; "/"]
    ∧ entry_name <$> entries = [JStr "plaza"; JStr "loc1"].
Proof.
  exists [mkEntry (JStr "plaza") "http://h/" (JArr [JStr "p1"]) (JInt 3);
          mkEntry (JStr "loc1") "/" (JArr [JStr "p2"]) (JStr "")].
  assert (load_data (λ _, "") two_locations
          = inr [mkEntry (JStr "plaza") "http://h/" (JArr [JStr "p1"]) (JInt 3);
                 mkEntry (JStr "loc1") "/" (JArr [JStr "p2"]) (JStr "")]) as Hload.
  { by vm_compute. }
  destruct (load_data_entries (λ _, "") _ _ Hload) as [Hlen _].
  split; [exact Hload |]. split; reflexivity.
Defined.
